(** * mkbee: word-list cleaning, puzzle filtering and JSON export

    A shallow embedding of [python/filter_and_export.py] and of the pangram
    check, the display and the query loop of [python/test_puzzle.py].

    A Python [str] is a sequence of Unicode code points; it is modelled as a
    list of code points, each an [N].  A single character is, as in Python, a
    string of length one.  Python sets become [gset]s. *)

From Stdlib Require Import ZArith NArith List Lia.
From stdpp Require Import gmap list sorting.

#[local] Set Warnings "-clear-no-such-hyp".

Abbreviation str := (list N).

(** ** Python string primitives *)

(** [len(s)], as a Python integer. *)
Definition len (s : str) : Z := Z.of_nat (length s).

(** [s.startswith(p)]. *)
Fixpoint startswith (p s : str) : bool :=
  match p, s with
  | [], _ => true
  | _ :: _, [] => false
  | a :: p', b :: s' => N.eqb a b && startswith p' s'
  end.

(** [sub in s] on strings: [sub] occurs in [s] as a contiguous substring. *)
Fixpoint str_in (sub s : str) : bool :=
  startswith sub s ||
  match s with
  | [] => false
  | _ :: s' => str_in sub s'
  end.

(** [set(word)]: the set of the one-character strings of [word]. *)
Definition set_of_str (word : str) : gset str :=
  list_to_set ((λ c, [c]) <$> word).

(** The characters named in the source. *)
Definition hyphen : str := [45%N].
Definition tilde : str := [126%N].
Definition apostrophe : str := [39%N].
Definition right_quote : str := [8217%N].

(** [len(l)] on a list of strings. *)
Definition len_list (l : list str) : Z := Z.of_nat (length l).

(** [l.count(v)] on a list of strings. *)
Definition count (v : str) (l : list str) : nat :=
  length (filter (λ w, w = v) l).

(** [l.index(x)]: the position of the first occurrence of [x] in [l]. *)
Fixpoint index_of (x : str) (l : list str) : option nat :=
  match l with
  | [] => None
  | y :: l' => if decide (y = x) then Some 0 else S <$> index_of x l'
  end.

(** [a] and [b] both occur in [l], and [a] occurs first before [b] does. *)
Definition first_before (l : list str) (a b : str) : Prop :=
  ∃ p q, index_of a l = Some p ∧ index_of b l = Some q ∧ p < q.

(** The distinct entries of [l], each at the place of its first
    occurrence. *)
Fixpoint first_occurrences (l : list str) : list str :=
  match l with
  | [] => []
  | x :: l' => x :: filter (λ y, y ≠ x) (first_occurrences l')
  end.

(** [occurs sub w]: the meaning of Python's [sub in w]. *)
Definition occurs (sub w : str) : Prop := ∃ pre post, w = pre ++ sub ++ post.

(** ** The pangram check of test_puzzle.py *)

(** [set([central] + others)]. *)
Definition all_letters (central : str) (others : list str) : gset str :=
  list_to_set ([central] ++ others).

(** [[w for w in valid_words if set(w) == all_letters]]. *)
Definition pangrams (central : str) (others : list str)
    (valid_words : list str) : list str :=
  filter (λ w, set_of_str w = all_letters central others) valid_words.

(** ** The display of test_puzzle.py *)

(** [a < b] on strings: by code points, a proper prefix first. *)
Fixpoint str_lt (a b : str) : bool :=
  match a, b with
  | _, [] => false
  | [], _ :: _ => true
  | x :: a', y :: b' => (x <? y)%N || ((x =? y)%N && str_lt a' b')
  end.

(** [<] on the sort keys [(len(w), w)]: tuples compare by their first
    components that differ. *)
Definition key_lt (w1 w2 : str) : bool :=
  (len w1 <? len w2)%Z || ((len w1 =? len w2)%Z && str_lt w1 w2).

(** [w1] is not after [w2] in the order of the keys. *)
Definition key_le (w1 w2 : str) : Prop := key_lt w2 w1 = false.

(** [valid_words.sort(key=lambda w: (len(w), w))].  The sort of the Python
    runtime is a stable sort that compares keys with [<]; it is modelled by
    the stable insertion sort: a word goes before the first word whose key
    is greater. *)
Fixpoint insert_word (w : str) (l : list str) : list str :=
  match l with
  | [] => [w]
  | x :: l' => if key_lt w x then w :: x :: l' else x :: insert_word w l'
  end.

Definition sort_words (l : list str) : list str :=
  foldl (λ sorted w, insert_word w sorted) [] l.

(** One iteration of the grouping loop:
    [if l not in words_by_len: words_by_len[l] = []], then
    [words_by_len[l].append(w)]. *)
Definition group_step (words_by_len : gmap Z (list str)) (w : str)
  : gmap Z (list str) :=
  let l := len w in
  let words_by_len :=
    if bool_decide (words_by_len !! l = None)
    then <[l := []]> words_by_len
    else words_by_len in
  alter (λ g, g ++ [w]) l words_by_len.

Definition group_by_len (valid_words : list str) : gmap Z (list str) :=
  foldl group_step ∅ valid_words.

(** [sorted(words_by_len.keys())]. *)
Definition sorted_keys (words_by_len : gmap Z (list str)) : list Z :=
  merge_sort Z.le (elements (dom words_by_len)).

(** The rows printed for a group:
    [current_len_words[i:i+5] for i in range(0, len(current_len_words), 5)]. *)
Definition rows (current_len_words : list str) : list (list str) :=
  (λ k, take 5 (drop (5 * k) current_len_words))
    <$> seq 0 ((length current_len_words + 4) / 5).

(** What is shown for the words found: for each length, in increasing
    order, the length, the number of words of that length and their rows. *)
Definition display (valid_words : list str)
  : list (Z * Z * list (list str)) :=
  let words_by_len := group_by_len valid_words in
  (λ length,
     let current_len_words := default [] (words_by_len !! length) in
     (length, len_list current_len_words, rows current_len_words))
    <$> sorted_keys words_by_len.

(** ** An instance of [lower]

    The simple lowercase mapping on the Basic Latin, Latin-1 and Cyrillic
    capital letters, character by character.  It is used to run the functions
    on concrete inputs. *)

Definition lower_cp (c : N) : N :=
  if (65 <=? c)%N && (c <=? 90)%N then (c + 32)%N
  else if (192 <=? c)%N && (c <=? 222)%N && negb (c =? 215)%N then (c + 32)%N
  else if (1024 <=? c)%N && (c <=? 1039)%N then (c + 80)%N
  else if (1040 <=? c)%N && (c <=? 1071)%N then (c + 32)%N
  else c.

Definition ulower (s : str) : str := map lower_cp s.

(** ** Instances of [strip] and [isalpha]

    White space is the space, the tab, the line feed and the carriage
    return; the letters are those of the Basic Latin and Cyrillic blocks. *)

Definition is_space (c : N) : bool :=
  (c =? 32)%N || (c =? 9)%N || (c =? 10)%N || (c =? 13)%N.

Fixpoint lstrip (s : str) : str :=
  match s with
  | [] => []
  | c :: s' => if is_space c then lstrip s' else s
  end.

Definition ustrip (s : str) : str := rev (lstrip (rev (lstrip s))).

Definition uisalpha (o : str) : bool :=
  match o with
  | [c] =>
      ((65 <=? c)%N && (c <=? 90)%N) || ((97 <=? c)%N && (c <=? 122)%N)
      || ((1024 <=? c)%N && (c <=? 1279)%N)
  | _ => false
  end.

(** Words of the scenarios. *)
Definition w_Apple : str := [65; 112; 112; 108; 101]%N.
Definition w_apple : str := [97; 112; 112; 108; 101]%N.
Definition w_a_b : str := [97; 45; 98]%N.
Definition w_hi : str := [104; 105]%N.
Definition w_test : str := [116; 101; 115; 116]%N.
Definition w_eats : str := [101; 97; 116; 115]%N.
Definition w_seat : str := [115; 101; 97; 116]%N.
Definition w_tea : str := [116; 101; 97]%N.
Definition w_ease : str := [101; 97; 115; 101]%N.

(** ** export_words

    [json.dump(words, f, ensure_ascii=False, separators=(',', ':'))] into a
    file opened with [encoding='utf-8'].  The encoder is the one of the
    Python standard library ([json.encoder]); the file object encodes the
    text it is given with the strict UTF-8 codec. *)

Local Open Scope N_scope.

(** A digit of [format(i, '04x')]. *)
Definition hex_digit (d : N) : N := if d <? 10 then 48 + d else 87 + d.

(** [ESCAPE_DCT] of [json.encoder], applied to the characters matched by
    [ESCAPE]: the quote, the backslash and the control characters below
    U+0020. *)
Definition escape_char (c : N) : str :=
  if c =? 34 then [92; 34]
  else if c =? 92 then [92; 92]
  else if c =? 10 then [92; 110]
  else if c =? 13 then [92; 114]
  else if c =? 9 then [92; 116]
  else if c =? 12 then [92; 102]
  else if c =? 8 then [92; 98]
  else if c <? 32 then
    [92; 117; 48; 48; hex_digit (c / 16); hex_digit (c mod 16)]
  else [c].

(** [encode_basestring]: the string between quotes, escaped. *)
Definition encode_basestring (s : str) : str :=
  [34] ++ flat_map escape_char s ++ [34].

(** The loop of [_iterencode_list]: [buf] is ['['] before the first item and
    the item separator [','] before the others. *)
Fixpoint iterencode_items (first : bool) (lst : list str) : str :=
  match lst with
  | [] => []
  | value :: rest =>
      (if first then [91] else [44]) ++ encode_basestring value
      ++ iterencode_items false rest
  end.

(** [_iterencode_list]: the text [json.dump] writes for a list of strings. *)
Definition iterencode_list (lst : list str) : str :=
  match lst with
  | [] => [91; 93]
  | _ => iterencode_items true lst ++ [93]
  end.

(** The code points the UTF-8 codec refuses: the surrogates. *)
Definition is_surrogate (c : N) : bool := (55296 <=? c) && (c <=? 57343).

(** The strict UTF-8 encoding of one code point; [None] is the
    [UnicodeEncodeError] of the codec.  Bytes are numbers below 256. *)
Definition utf8_encode_cp (c : N) : option (list N) :=
  if c <? 128 then Some [c]
  else if c <? 2048 then Some [192 + c / 64; 128 + c mod 64]
  else if c <? 65536 then
    if is_surrogate c then None
    else Some [224 + c / 4096; 128 + (c / 64) mod 64; 128 + c mod 64]
  else if c <? 1114112 then
    Some [240 + c / 262144; 128 + (c / 4096) mod 64;
          128 + (c / 64) mod 64; 128 + c mod 64]
  else None.

Fixpoint utf8_encode (s : str) : option (list N) :=
  match s with
  | [] => Some []
  | c :: rest =>
      match utf8_encode_cp c, utf8_encode rest with
      | Some bs, Some bs' => Some (bs ++ bs')
      | _, _ => None
      end
  end.

(** The bytes [export_words] writes to the file, or [None] when the write
    raises.  (The size in megabytes it returns is only reported.) *)
Definition export_words (words : list str) : option (list N) :=
  utf8_encode (iterencode_list words).

(** ** A JSON parser

    Reading the file back: the strict UTF-8 decoder, then a parser of JSON
    texts (RFC 8259) that are arrays of strings; any other text is
    rejected. *)

(** A continuation byte. *)
Definition is_cont (b : N) : bool := (128 <=? b) && (b <? 192).

Fixpoint utf8_decode (bs : list N) : option str :=
  match bs with
  | [] => Some []
  | b0 :: r0 =>
      if b0 <? 128 then cons b0 <$> utf8_decode r0
      else if b0 <? 194 then None
      else if b0 <? 224 then
        match r0 with
        | b1 :: r1 =>
            if is_cont b1
            then cons ((b0 - 192) * 64 + (b1 - 128)) <$> utf8_decode r1
            else None
        | _ => None
        end
      else if b0 <? 240 then
        match r0 with
        | b1 :: b2 :: r2 =>
            let c := (b0 - 224) * 4096 + (b1 - 128) * 64 + (b2 - 128) in
            if is_cont b1 && is_cont b2 && (2048 <=? c)
               && negb (is_surrogate c)
            then cons c <$> utf8_decode r2
            else None
        | _ => None
        end
      else if b0 <? 245 then
        match r0 with
        | b1 :: b2 :: b3 :: r3 =>
            let c := (b0 - 240) * 262144 + (b1 - 128) * 4096
                     + (b2 - 128) * 64 + (b3 - 128) in
            if is_cont b1 && is_cont b2 && is_cont b3
               && (65536 <=? c) && (c <? 1114112)
            then cons c <$> utf8_decode r3
            else None
        | _ => None
        end
      else None
  end.

(** The value of a hexadecimal digit. *)
Definition hex_value (c : N) : option N :=
  if (48 <=? c) && (c <=? 57) then Some (c - 48)
  else if (97 <=? c) && (c <=? 102) then Some (c - 87)
  else if (65 <=? c) && (c <=? 70) then Some (c - 55)
  else None.

(** JSON white space. *)
Definition is_ws (c : N) : bool :=
  (c =? 32) || (c =? 9) || (c =? 10) || (c =? 13).

(** The character a [\uXXXX] escape stands for is appended to the string
    read so far; a low surrogate that follows a high one makes one code
    point with it. *)
Definition push_unicode (cur : str) (v : N) : str :=
  match last cur with
  | Some h =>
      if (55296 <=? h) && (h <=? 56319) && (56320 <=? v) && (v <=? 57343)
      then removelast cur ++ [65536 + (h - 55296) * 1024 + (v - 56320)]
      else cur ++ [v]
  | None => cur ++ [v]
  end.

(** The states of the parser: where it is in the text, with the strings
    read so far ([acc]) and the string being read ([cur]). *)
Inductive pstate :=
| PStart
| PFirst
| PValue (acc : list str)
| PString (acc : list str) (cur : str)
| PEscape (acc : list str) (cur : str)
| PUnicode (acc : list str) (cur : str) (digits : nat) (v : N)
| PAfter (acc : list str)
| PEnd (acc : list str)
| PError.

Definition parse_step (st : pstate) (c : N) : pstate :=
  match st with
  | PStart =>
      if is_ws c then PStart else if c =? 91 then PFirst else PError
  | PFirst =>
      if is_ws c then PFirst
      else if c =? 93 then PEnd []
      else if c =? 34 then PString [] []
      else PError
  | PValue acc =>
      if is_ws c then PValue acc
      else if c =? 34 then PString acc []
      else PError
  | PString acc cur =>
      if c =? 34 then PAfter (acc ++ [cur])
      else if c =? 92 then PEscape acc cur
      else if c <? 32 then PError
      else PString acc (cur ++ [c])
  | PEscape acc cur =>
      if c =? 34 then PString acc (cur ++ [34])
      else if c =? 92 then PString acc (cur ++ [92])
      else if c =? 47 then PString acc (cur ++ [47])
      else if c =? 98 then PString acc (cur ++ [8])
      else if c =? 102 then PString acc (cur ++ [12])
      else if c =? 110 then PString acc (cur ++ [10])
      else if c =? 114 then PString acc (cur ++ [13])
      else if c =? 116 then PString acc (cur ++ [9])
      else if c =? 117 then PUnicode acc cur 3 0
      else PError
  | PUnicode acc cur digits v =>
      match hex_value c with
      | Some d =>
          match digits with
          | O => PString acc (push_unicode cur (16 * v + d))
          | S digits' => PUnicode acc cur digits' (16 * v + d)
          end
      | None => PError
      end
  | PAfter acc =>
      if is_ws c then PAfter acc
      else if c =? 44 then PValue acc
      else if c =? 93 then PEnd acc
      else PError
  | PEnd acc => if is_ws c then PEnd acc else PError
  | PError => PError
  end.

(** The parser on a text: the list of strings of the array. *)
Definition json_parse (text : str) : option (list str) :=
  match foldl parse_step PStart text with
  | PEnd acc => Some acc
  | _ => None
  end.

(** [json.load] on the bytes of a file. *)
Definition json_load (bs : list N) : option (list str) :=
  match utf8_decode bs with
  | Some text => json_parse text
  | None => None
  end.

(** A Unicode scalar value: a code point that is not a surrogate. *)
Definition scalar_value (c : N) : Prop :=
  c < 55296 ∨ (57344 ≤ c ∧ c < 1114112).

Local Close Scope N_scope.

Section FilterAndExport.

(** [str.lower] of the Python runtime. *)
Variable lower : str → str.

(** *** clean_wordlist *)

(** The loop state: the list [cleaned] and the set [seen]. *)
Record clean_state := CleanState {
  cleaned : list str;
  seen : gset str
}.

(** The test on line 60 of the source. *)
Definition has_unwanted (word : str) : bool :=
  str_in hyphen word || str_in tilde word ||
  str_in apostrophe word || str_in right_quote word.

(** One iteration of the loop over [words]. *)
Definition clean_step (min_length : Z) (st : clean_state) (word : str)
  : clean_state :=
  let word := lower word in
  if bool_decide (word ∈ seen st) then st
  else if has_unwanted word then st
  else if (len word <? min_length)%Z then st
  else CleanState (cleaned st ++ [word]) ({[word]} ∪ seen st).

Definition clean_wordlist (words : list str) (min_length : Z) : list str :=
  cleaned (foldl (clean_step min_length) (CleanState [] ∅) words).

(** The character and length tests of the loop body as one: what a
    lowercased word that is not in [seen] has to pass to be appended. *)
Definition clean_ok (min_length : Z) (word : str) : bool :=
  negb (has_unwanted word) && negb (len word <? min_length)%Z.

(** The two figures reported after the loop: [len(words) - len(cleaned)],
    printed as the number of removed words, and
    [len(set(w.lower() for w in words)) - len(seen)], printed as the number
    of removed duplicates. *)
Definition removed_words (words : list str) (min_length : Z) : Z :=
  let st := foldl (clean_step min_length) (CleanState [] ∅) words in
  (len_list words - len_list (cleaned st))%Z.

Definition removed_duplicates (words : list str) (min_length : Z) : Z :=
  let st := foldl (clean_step min_length) (CleanState [] ∅) words in
  (Z.of_nat (size (list_to_set (lower <$> words) : gset str))
   - Z.of_nat (size (seen st)))%Z.

(** *** selector *)

(** [set([must_have] + [l.lower() for l in optional])]; at this point of
    the source [must_have] has been lowercased already. *)
Definition allowed_letters (must_have : str) (optional : list str)
  : gset str :=
  list_to_set ([must_have] ++ (lower <$> optional)).

(** One iteration of the loop over [words]; [must_have] is lowercased. *)
Definition selector_step (must_have : str) (allowed : gset str)
    (min_length : Z) (valid_words : list str) (word : str) : list str :=
  let word := lower word in
  if (len word <? min_length)%Z || negb (str_in must_have word)
  then valid_words
  else if bool_decide (set_of_str word ⊆ allowed)
       then valid_words ++ [word]
       else valid_words.

Definition selector (must_have : str) (optional : list str)
    (words : list str) (min_length : Z) : list str :=
  let must_have := lower must_have in
  let allowed := allowed_letters must_have optional in
  foldl (selector_step must_have allowed min_length) [] words.

(** The two tests of the loop body as one: what a lowercased word has to
    pass to be appended ([must_have] is the argument of [selector], not yet
    lowercased). *)
Definition passes (must_have : str) (optional : list str) (min_length : Z)
    (word : str) : bool :=
  negb ((len word <? min_length)%Z || negb (str_in (lower must_have) word))
  && bool_decide (set_of_str word ⊆ allowed_letters (lower must_have) optional).

(** What [selector] keeps, in words: a (lowercased) word [w] of length at
    least [min_length], in which [lower must_have] occurs, and whose
    characters are each the lowercased required letter or a lowercased
    optional letter. *)
Definition select_ok (must_have : str) (optional : list str) (min_length : Z)
    (w : str) : Prop :=
  (min_length ≤ len w)%Z ∧ occurs (lower must_have) w ∧
  ∀ c, c ∈ w → [c] = lower must_have ∨ ∃ o, o ∈ optional ∧ [c] = lower o.

(** *** main *)

(** How [main] ends once [raw_words] is loaded: it returns, or the write of
    [export_words] raises, or the division of the summary does. *)
Inductive main_end :=
| MainReturns
| MainUnicodeEncodeError
| MainZeroDivisionError.

Definition MIN_LENGTH : Z := 4.

(** [main] from the loaded [raw_words] on: the bytes written to the output
    file ([None] when the write raises; what is left in the file then is not
    modelled) and how [main] ends.  After the export the summary computes
    [len(cleaned_words)/len(raw_words)*100]. *)
Definition main (raw_words : list str) : option (list N) * main_end :=
  let cleaned_words := clean_wordlist raw_words MIN_LENGTH in
  match export_words cleaned_words with
  | None => (None, MainUnicodeEncodeError)
  | Some bs =>
      if bool_decide (len_list raw_words = 0%Z)
      then (Some bs, MainZeroDivisionError)
      else (Some bs, MainReturns)
  end.

(** ** Facts about the string primitives *)

Lemma startswith_spec (p s : str) :
  startswith p s = true ↔ ∃ post, s = p ++ post.
Proof.
  revert s. induction p as [|a p IH]; intros s; simpl.
  - split; [intros _; by exists s | done].
  - destruct s as [|b s].
    + split; [done | intros [post Hp]; discriminate].
    + rewrite andb_true_iff, N.eqb_eq, IH. split.
      * intros [-> [post ->]]. by exists post.
      * intros [post Hp]. injection Hp as -> ->. eauto.
Qed.

Lemma str_in_spec (sub s : str) : str_in sub s = true ↔ occurs sub s.
Proof.
  unfold occurs. induction s as [|b s IH]; simpl;
    rewrite orb_true_iff, startswith_spec.
  - split.
    + intros [[post Hp] | ?]; [|done]. exists [], post. done.
    + intros (pre & post & Hp). left.
      destruct pre; [by exists post | discriminate].
  - rewrite IH. split.
    + intros [[post Hp] | (pre & post & Hp)].
      * exists [], post. done.
      * exists (b :: pre), post. by rewrite Hp.
    + intros (pre & post & Hp). destruct pre as [|b' pre]; simpl in Hp.
      * left. by exists post.
      * right. injection Hp as -> ->. eauto.
Qed.

Lemma str_in_char (c : N) (s : str) : str_in [c] s = true ↔ c ∈ s.
Proof.
  rewrite str_in_spec. unfold occurs. split.
  - intros (pre & post & ->). set_solver.
  - intros (pre & post & ->)%list_elem_of_split. by exists pre, post.
Qed.

Lemma set_of_str_subseteq (word : str) (X : gset str) :
  set_of_str word ⊆ X ↔ ∀ c, c ∈ word → [c] ∈ X.
Proof.
  unfold set_of_str. split.
  - intros HX c Hc. apply HX, elem_of_list_to_set, list_elem_of_fmap. eauto.
  - intros HX x (c & -> & Hc)%elem_of_list_to_set%list_elem_of_fmap. auto.
Qed.

Lemma elem_of_allowed_letters (must_have : str) (optional : list str) (x : str) :
  x ∈ allowed_letters must_have optional ↔
  x = must_have ∨ ∃ o, o ∈ optional ∧ x = lower o.
Proof.
  unfold allowed_letters. rewrite elem_of_list_to_set. simpl.
  rewrite elem_of_cons, list_elem_of_fmap. split.
  - intros [->|(o & -> & Ho)]; eauto.
  - intros [->|(o & Ho & ->)]; eauto.
Qed.

(** ** selector *)

Lemma selector_step_passes must_have optional min_length valid_words word :
  selector_step (lower must_have) (allowed_letters (lower must_have) optional)
    min_length valid_words word
  = valid_words ++ filter (λ w, passes must_have optional min_length w) [lower word].
Proof.
  unfold selector_step, passes. rewrite filter_cons, filter_nil. cbv beta zeta.
  destruct (_ || _); simpl.
  - by rewrite app_nil_r.
  - case_bool_decide; simpl; by rewrite ?app_nil_r.
Qed.

(** [selector] is a filter over the lowercased input. *)
Lemma selector_filter must_have optional words min_length :
  selector must_have optional words min_length
  = filter (λ w, passes must_have optional min_length w) (lower <$> words).
Proof.
  unfold selector. cbv zeta.
  change (filter _ (lower <$> words))
    with ([] ++ filter (λ w, passes must_have optional min_length w) (lower <$> words)).
  generalize (@nil str) as acc.
  induction words as [|word words IH]; intros acc.
  - simpl. by rewrite filter_nil, app_nil_r.
  - rewrite fmap_cons. cbn [foldl].
    rewrite selector_step_passes, IH, <- app_assoc. f_equal.
    symmetry. apply (filter_app _ [lower word]).
Qed.

Lemma passes_spec must_have optional min_length (w : str) :
  passes must_have optional min_length w = true ↔
  (min_length ≤ len w)%Z ∧ occurs (lower must_have) w ∧
  set_of_str w ⊆ {[lower must_have]} ∪ list_to_set (lower <$> optional).
Proof.
  unfold passes.
  rewrite andb_true_iff, negb_true_iff, orb_false_iff, negb_false_iff.
  rewrite Z.ltb_ge, str_in_spec, bool_decide_eq_true. unfold allowed_letters.
  simpl. tauto.
Qed.

Lemma select_ok_passes must_have optional min_length (w : str) :
  select_ok must_have optional min_length w ↔
  passes must_have optional min_length w = true.
Proof.
  rewrite passes_spec, set_of_str_subseteq. unfold select_ok.
  split; intros (Hlen & Hocc & Hsub); (split; [done | split; [done |]]).
  - intros c [->|(o & Ho & ->)]%Hsub; [set_solver|].
    apply elem_of_union_r, elem_of_list_to_set, list_elem_of_fmap. eauto.
  - intros c [Hc%elem_of_singleton|Hc%elem_of_list_to_set]%Hsub%elem_of_union;
      [by left | right].
    apply list_elem_of_fmap in Hc as (o & -> & Ho). eauto.
Qed.

#[global] Instance select_ok_dec must_have optional min_length (w : str) :
  Decision (select_ok must_have optional min_length w).
Proof.
  refine (cast_if (decide (passes must_have optional min_length w = true)));
    by rewrite select_ok_passes.
Defined.

(** C1: every word [w] of the result of [selector] has its set of distinct
    characters inside [{lower must_have} ∪ {lower c | c ∈ optional}], has
    [lower must_have] occurring in it, and has length at least
    [min_length]. *)
Theorem selector_sound must_have optional words min_length (w : str) :
  w ∈ selector must_have optional words min_length →
  set_of_str w ⊆ {[lower must_have]} ∪ list_to_set (lower <$> optional)
  ∧ occurs (lower must_have) w
  ∧ (min_length ≤ len w)%Z.
Proof.
  rewrite selector_filter, list_elem_of_filter, Is_true_true, passes_spec.
  tauto.
Qed.

(** C6: listing the required letter among the optional ones as well changes
    nothing, and the allowed set always has the lowercased required letter
    as a member. *)
Theorem selector_required_in_optional must_have optional words min_length :
  selector must_have optional words min_length
  = selector must_have ([must_have] ++ optional) words min_length
  ∧ lower must_have ∈ allowed_letters (lower must_have) optional.
Proof.
  assert (Heq : allowed_letters (lower must_have) ([must_have] ++ optional)
                = allowed_letters (lower must_have) optional).
  { unfold allowed_letters. simpl. set_solver. }
  split.
  - unfold selector. cbv zeta. by rewrite Heq.
  - apply elem_of_allowed_letters. by left.
Qed.

(** C10: [selector] keeps multiplicities: a lowercase form [v] that passes
    the filter occurs in the result exactly as often as among the lowercased
    input words. *)
Theorem selector_keeps_multiplicity must_have optional words min_length (v : str) :
  select_ok must_have optional min_length v →
  count v (selector must_have optional words min_length)
  = count v (lower <$> words).
Proof.
  intros Hv%select_ok_passes. rewrite selector_filter. unfold count.
  rewrite list_filter_filter. f_equal. apply list_filter_iff.
  intros w. split; [tauto|]. intros ->. split; [done|]. by apply Is_true_true.
Qed.

(** ** clean_wordlist *)

Lemma has_unwanted_false (w : str) :
  has_unwanted w = false ↔
  (45%N ∉ w) ∧ (126%N ∉ w) ∧ (39%N ∉ w) ∧ (8217%N ∉ w).
Proof.
  unfold has_unwanted, hyphen, tilde, apostrophe, right_quote.
  rewrite !orb_false_iff, <- !str_in_char, !not_true_iff_false. tauto.
Qed.

Lemma clean_ok_spec min_length (w : str) :
  clean_ok min_length w = true ↔ has_unwanted w = false ∧ (min_length ≤ len w)%Z.
Proof.
  unfold clean_ok.
  by rewrite andb_true_iff, !negb_true_iff, Z.ltb_ge.
Qed.

Lemma elem_of_first_occurrences (x : str) l : x ∈ first_occurrences l ↔ x ∈ l.
Proof.
  induction l as [|y l IH]; simpl; [done|].
  rewrite !elem_of_cons, list_elem_of_filter, IH.
  destruct (decide (x = y)); tauto.
Qed.

Lemma NoDup_first_occurrences l : NoDup (first_occurrences l).
Proof.
  induction l as [|y l IH]; simpl; [constructor|].
  apply NoDup_cons. split; [|by apply NoDup_filter].
  rewrite list_elem_of_filter. tauto.
Qed.

Lemma first_occurrences_sublist l : first_occurrences l `sublist_of` l.
Proof.
  induction l as [|y l IH]; simpl; [done|].
  apply sublist_skip. etrans; [apply sublist_filter | done].
Qed.

Lemma first_occurrences_NoDup l : NoDup l → first_occurrences l = l.
Proof.
  induction 1 as [|y l Hy _ IH]; simpl; [done|]. rewrite IH. f_equal.
  clear IH. induction l as [|z l IHl]; [done|].
  apply not_elem_of_cons in Hy as [Hne Hy].
  rewrite filter_cons_True by done. f_equal. auto.
Qed.

Lemma index_of_is_Some (x : str) l : x ∈ l → is_Some (index_of x l).
Proof.
  induction l as [|y l IH]; [by intros ?%elem_of_nil|]. simpl.
  intros Hx. destruct (decide (y = x)); [by eexists|].
  apply elem_of_cons in Hx as [->|Hx]; [done|].
  destruct (IH Hx) as [p ->]. by eexists.
Qed.

Lemma StronglySorted_filter {A} (R : A → A → Prop) (P : A → Prop)
    `{!∀ x, Decision (P x)} l :
  StronglySorted R l → StronglySorted R (filter P l).
Proof.
  induction 1 as [|x l _ IH Hx]; [constructor|].
  rewrite filter_cons. destruct (decide (P x)); [|done].
  constructor; [done|].
  apply Forall_forall. intros y [_ Hy]%list_elem_of_filter.
  by eapply Forall_forall in Hx.
Qed.

Lemma first_before_cons (x a b : str) l :
  a ≠ x → b ≠ x → first_before l a b → first_before (x :: l) a b.
Proof.
  intros Ha Hb (p & q & Hp & Hq & Hpq). exists (S p), (S q). simpl.
  rewrite !decide_False, Hp, Hq by done. repeat split; simpl; lia.
Qed.

Lemma StronglySorted_weaken {A} (R R' : A → A → Prop) l :
  (∀ a b, a ∈ l → b ∈ l → R a b → R' a b) →
  StronglySorted R l → StronglySorted R' l.
Proof.
  intros HR Hs. induction Hs as [|x l _ IH Hx]; constructor.
  - apply IH. intros a b Ha Hb. apply HR; by apply elem_of_cons; right.
  - apply Forall_forall. intros b Hb. apply HR.
    + by apply elem_of_cons; left.
    + by apply elem_of_cons; right.
    + by eapply Forall_forall in Hx.
Qed.

Lemma first_occurrences_sorted l :
  StronglySorted (first_before l) (first_occurrences l).
Proof.
  induction l as [|x l IH]; simpl; constructor.
  - apply (StronglySorted_weaken (first_before l)).
    + intros a b [Ha _]%list_elem_of_filter [Hb _]%list_elem_of_filter.
      by apply first_before_cons.
    + by apply StronglySorted_filter.
  - apply Forall_forall.
    intros b [Hb Hin]%list_elem_of_filter.
    rewrite elem_of_first_occurrences in Hin.
    destruct (index_of_is_Some b l Hin) as [q Hq].
    exists 0, (S q). simpl.
    rewrite decide_True, decide_False, Hq by done. repeat split. lia.
Qed.

(** One iteration, in a state whose [seen] holds the entries of [cleaned]. *)
Lemma clean_step_cases min_length st word :
  seen st = list_to_set (cleaned st) →
  clean_step min_length st word
  = if bool_decide (lower word ∈ cleaned st)
       || negb (clean_ok min_length (lower word))
    then st
    else CleanState (cleaned st ++ [lower word]) ({[lower word]} ∪ seen st).
Proof.
  intros Hseen. unfold clean_step, clean_ok. cbv zeta.
  assert (Hiff : lower word ∈ seen st ↔ lower word ∈ cleaned st)
    by (rewrite Hseen; apply elem_of_list_to_set).
  rewrite (bool_decide_ext _ _ Hiff).
  destruct (bool_decide _); [done|].
  destruct (has_unwanted _); [done|]. by destruct (_ <? _)%Z.
Qed.

(** The loop of [clean_wordlist] started in a state whose [seen] holds the
    entries of [cleaned]. *)
Lemma clean_loop_spec min_length words st :
  seen st = list_to_set (cleaned st) →
  cleaned (foldl (clean_step min_length) st words)
  = cleaned st ++
    filter (λ w, (w ∉ cleaned st) ∧ clean_ok min_length w)
      (first_occurrences (lower <$> words)).
Proof.
  revert st. induction words as [|word words IH]; intros st Hseen.
  - simpl. by rewrite filter_nil, app_nil_r.
  - rewrite fmap_cons. cbn [foldl first_occurrences].
    rewrite filter_cons, list_filter_filter, clean_step_cases by done.
    case_bool_decide as Hin; simpl.
    { rewrite IH, decide_False by tauto. f_equal.
      apply list_filter_iff. intros w. split; [|tauto].
      intros [Hw ?]. repeat split; try done. by intros ->. }
    destruct (clean_ok min_length (lower word)) eqn:Hok; simpl.
    + rewrite IH by (simpl; rewrite Hseen, list_to_set_app_L; set_solver).
      simpl. rewrite decide_True, <- app_assoc by done. simpl.
      do 2 f_equal. apply list_filter_iff. intros w.
      rewrite elem_of_app, list_elem_of_singleton. tauto.
    + rewrite IH, decide_False by tauto. f_equal.
      apply list_filter_iff. intros w. split; [|tauto].
      intros [Hw Hw']. repeat split; try done. intros ->.
      by rewrite Hok in Hw'.
Qed.

(** [clean_wordlist] keeps, of the first occurrences of the lowercased
    words, those that pass the character and length tests. *)
Lemma clean_wordlist_filter words min_length :
  clean_wordlist words min_length
  = filter (λ w, clean_ok min_length w) (first_occurrences (lower <$> words)).
Proof.
  unfold clean_wordlist. rewrite clean_loop_spec by done. simpl.
  apply list_filter_iff. intros w. rewrite elem_of_nil. tauto.
Qed.

(** C7: with [min_length ≤ 0] the length test removes nothing: an iteration
    appends every word whose lowercase form is not in [seen] and has no
    forbidden character (the empty string too), and the lowercase form of
    every input word without a forbidden character is in the output. *)
Theorem clean_wordlist_no_length_filter words min_length :
  (min_length ≤ 0)%Z →
  (∀ st word,
     lower word ∉ seen st → has_unwanted (lower word) = false →
     clean_step min_length st word
     = CleanState (cleaned st ++ [lower word]) ({[lower word]} ∪ seen st))
  ∧ (∀ word,
       word ∈ words → has_unwanted (lower word) = false →
       lower word ∈ clean_wordlist words min_length).
Proof.
  intros Hmin.
  assert (Hlen : ∀ w, (len w <? min_length)%Z = false).
  { intros w. apply Z.ltb_ge. unfold len. lia. }
  split.
  - intros st word Hseen Hun. unfold clean_step. cbv zeta.
    by rewrite bool_decide_false, Hun, Hlen.
  - intros word Hin Hun. rewrite clean_wordlist_filter.
    apply list_elem_of_filter. split.
    + apply Is_true_true, clean_ok_spec. split; [done|].
      by apply Z.ltb_ge.
    + by apply elem_of_first_occurrences, list_elem_of_fmap_2.
Qed.

Section LowerIdempotent.

(** [str.lower] leaves a lowercased string as it is. *)
Hypothesis lower_idem : ∀ s, lower (lower s) = lower s.

(** C4: the result of [selector] is a subsequence of the lowercased input
    list, in the original relative order, and each of its words is its own
    lowercase form. *)
Theorem selector_sublist_lowercase must_have optional words min_length :
  selector must_have optional words min_length `sublist_of` (lower <$> words)
  ∧ Forall (λ w, lower w = w) (selector must_have optional words min_length).
Proof.
  rewrite selector_filter. split; [apply sublist_filter|].
  apply Forall_forall. intros w [_ Hw]%list_elem_of_filter.
  apply list_elem_of_fmap in Hw as (x & -> & _). apply lower_idem.
Qed.

Lemma clean_wordlist_lowercase words min_length (w : str) :
  w ∈ clean_wordlist words min_length → lower w = w.
Proof.
  rewrite clean_wordlist_filter.
  intros [_ Hw]%list_elem_of_filter.
  rewrite elem_of_first_occurrences in Hw.
  apply list_elem_of_fmap in Hw as (x & -> & _). apply lower_idem.
Qed.

Lemma clean_wordlist_fmap_lower words min_length :
  lower <$> clean_wordlist words min_length = clean_wordlist words min_length.
Proof.
  rewrite <- (list_fmap_id (clean_wordlist _ _)) at 2.
  apply list_fmap_ext. intros i w Hw. simpl.
  eapply clean_wordlist_lowercase, list_elem_of_lookup_2, Hw.
Qed.

(** C2: the output of [clean_wordlist] keeps the order of the first
    occurrences in the (lowercased) input, has no two entries that are equal
    after lowercasing, and each of its words has length at least
    [min_length] and none of the characters ['-'], ['~'], ['''] and
    U+2019. *)
Theorem clean_wordlist_guarantees words min_length :
  clean_wordlist words min_length `sublist_of` (lower <$> words)
  ∧ StronglySorted (first_before (lower <$> words))
      (clean_wordlist words min_length)
  ∧ NoDup (lower <$> clean_wordlist words min_length)
  ∧ Forall (λ w, (min_length ≤ len w)%Z ∧
                 (45%N ∉ w) ∧ (126%N ∉ w) ∧ (39%N ∉ w) ∧ (8217%N ∉ w))
      (clean_wordlist words min_length).
Proof.
  rewrite clean_wordlist_fmap_lower, clean_wordlist_filter.
  split; [|split; [|split]].
  - etrans; [apply sublist_filter | apply first_occurrences_sublist].
  - apply StronglySorted_filter, first_occurrences_sorted.
  - apply NoDup_filter, NoDup_first_occurrences.
  - apply Forall_forall.
    intros w [[Hun Hlen]%Is_true_true%clean_ok_spec _]%list_elem_of_filter.
    by apply has_unwanted_false in Hun.
Qed.

(** C3: cleaning is idempotent. *)
Theorem clean_wordlist_idempotent words min_length :
  clean_wordlist (clean_wordlist words min_length) min_length
  = clean_wordlist words min_length.
Proof.
  rewrite (clean_wordlist_filter (clean_wordlist _ _)).
  rewrite clean_wordlist_fmap_lower, clean_wordlist_filter.
  rewrite first_occurrences_NoDup
    by apply NoDup_filter, NoDup_first_occurrences.
  rewrite list_filter_filter. apply list_filter_iff. tauto.
Qed.

End LowerIdempotent.

(** C9: [selector] is a total function of its string arguments: for every
    [must_have], of any length, it returns exactly the lowercased words of
    length at least [min_length] in which [lower must_have] occurs as a
    contiguous substring and whose characters all lie in
    [{lower must_have} ∪ {lower c | c ∈ optional}]; with the empty string
    for [must_have] (which [str.lower] leaves empty) the condition is that
    the characters lie in the lowercased optional letters. *)
Theorem selector_exact must_have optional words min_length :
  selector must_have optional words min_length
  = filter (select_ok must_have optional min_length) (lower <$> words)
  ∧ (lower [] = [] →
     ∀ w, select_ok [] optional min_length w ↔
          (min_length ≤ len w)%Z ∧
          ∀ c, c ∈ w → ∃ o, o ∈ optional ∧ [c] = lower o).
Proof.
  split.
  - rewrite selector_filter. apply list_filter_iff. intros w.
    by rewrite Is_true_true, select_ok_passes.
  - intros Hnil w. unfold select_ok. rewrite Hnil. split.
    + intros (Hlen & _ & Hsub). split; [done|].
      intros c [?|?]%Hsub; [discriminate | done].
    + intros [Hlen Hsub]. split; [done|]. split; [by exists [], w | eauto].
Qed.



(** ** Further properties of clean_wordlist *)

(** The loop keeps [seen] equal to the set of the entries of [cleaned]. *)
Lemma clean_loop_seen min_length words st :
  seen st = list_to_set (cleaned st) →
  seen (foldl (clean_step min_length) st words)
  = list_to_set (cleaned (foldl (clean_step min_length) st words)).
Proof.
  revert st. induction words as [|word words IH]; intros st Hseen; [done|].
  cbn [foldl]. apply IH. rewrite clean_step_cases by done.
  destruct (_ || _); [done|]. simpl.
  rewrite Hseen, list_to_set_app_L. set_solver.
Qed.

(** X1: a string is in the output of [clean_wordlist] exactly when it is the
    lowercase form of an input word, has none of the unwanted characters and
    has length at least [min_length]. *)
Theorem clean_wordlist_elem_of words min_length (w : str) :
  w ∈ clean_wordlist words min_length ↔
  (∃ word, word ∈ words ∧ w = lower word) ∧
  has_unwanted w = false ∧ (min_length ≤ len w)%Z.
Proof.
  rewrite clean_wordlist_filter, list_elem_of_filter, Is_true_true,
    clean_ok_spec, elem_of_first_occurrences, list_elem_of_fmap.
  split.
  - intros [? (x & -> & ?)]. eauto.
  - intros [(x & ? & ->) ?]. eauto.
Qed.

(** X2: cleaning a concatenation: the second list contributes its cleaned
    words that the first list has not given already. *)
Theorem clean_wordlist_app words1 words2 min_length :
  clean_wordlist (words1 ++ words2) min_length
  = clean_wordlist words1 min_length
    ++ filter (λ w, w ∉ clean_wordlist words1 min_length)
         (clean_wordlist words2 min_length).
Proof.
  unfold clean_wordlist at 1. rewrite foldl_app.
  rewrite clean_loop_spec by (by apply clean_loop_seen).
  fold (clean_wordlist words1 min_length). f_equal.
  rewrite (clean_wordlist_filter words2), list_filter_filter. done.
Qed.

(** X3: a larger [min_length] gives the words of the smaller one that are
    long enough. *)
Theorem clean_wordlist_min_length words (m1 m2 : Z) :
  (m1 ≤ m2)%Z →
  clean_wordlist words m2
  = filter (λ w, (m2 ≤ len w)%Z) (clean_wordlist words m1).
Proof.
  intros Hm. rewrite !clean_wordlist_filter, list_filter_filter.
  apply list_filter_iff. intros w.
  rewrite !Is_true_true, !clean_ok_spec. split; [|tauto].
  intros [? ?]. repeat split; try done. lia.
Qed.

(** X4: the figures reported by [clean_wordlist].  The first is the number
    of input words that are not in the output, and is not negative.  The
    second, reported as the number of duplicates, is the number of distinct
    lowercase forms that have an unwanted character or are too short: the
    repeated words are not counted in it. *)
Theorem clean_wordlist_report words min_length :
  removed_words words min_length
  = (len_list words - len_list (clean_wordlist words min_length))%Z
  ∧ (0 ≤ removed_words words min_length)%Z
  ∧ removed_duplicates words min_length
    = len_list (filter (λ w, ¬ clean_ok min_length w)
                  (first_occurrences (lower <$> words))).
Proof.
  unfold removed_words, removed_duplicates, len_list. cbv zeta.
  fold (clean_wordlist words min_length).
  rewrite clean_loop_seen by done. fold (clean_wordlist words min_length).
  split; [done|]. split.
  - rewrite clean_wordlist_filter.
    pose proof (length_filter (λ w, clean_ok min_length w)
                  (first_occurrences (lower <$> words))).
    pose proof (sublist_length _ _ (first_occurrences_sublist (lower <$> words))).
    rewrite length_fmap in *. lia.
  - assert (list_to_set (lower <$> words)
            =@{gset str} list_to_set (first_occurrences (lower <$> words)))
      as ->.
    { apply set_eq. intros x.
      by rewrite !elem_of_list_to_set, elem_of_first_occurrences. }
    rewrite !size_list_to_set;
      [|rewrite clean_wordlist_filter; apply NoDup_filter|];
      try apply NoDup_first_occurrences.
    rewrite clean_wordlist_filter.
    pose proof (filter_app_complement (λ w, clean_ok min_length w)
                  (first_occurrences (lower <$> words))) as Hp.
    apply Permutation_length in Hp. rewrite length_app in Hp. lia.
Qed.

Section LowerIdempotentClean.

Hypothesis lower_idem : ∀ s, lower (lower s) = lower s.

(** X5: cleaning does not depend on the case of the input: lowercasing the
    words first gives the same output. *)
Theorem clean_wordlist_case_insensitive words min_length :
  clean_wordlist (lower <$> words) min_length
  = clean_wordlist words min_length.
Proof.
  rewrite !clean_wordlist_filter. do 2 f_equal.
  rewrite <- list_fmap_compose. apply list_fmap_ext.
  intros i x _. apply lower_idem.
Qed.

End LowerIdempotentClean.

(** ** Further properties of selector *)

Lemma sublist_filter_impl {A} (P Q : A → Prop)
    `{!∀ x, Decision (P x)} `{!∀ x, Decision (Q x)} (l : list A) :
  (∀ x, P x → Q x) → filter P l `sublist_of` filter Q l.
Proof.
  intros HPQ. induction l as [|x l IH]; [done|]. rewrite !filter_cons.
  destruct (decide (P x)), (decide (Q x)).
  - by apply sublist_skip.
  - exfalso. auto.
  - by apply sublist_cons.
  - done.
Qed.

Lemma fmap_lower_fixed (l : list str) :
  (∀ w, w ∈ l → lower w = w) → lower <$> l = l.
Proof.
  intros Hl. rewrite <- (list_fmap_id l) at 2. apply list_fmap_ext.
  intros i w Hw. simpl. eapply Hl, list_elem_of_lookup_2, Hw.
Qed.

(** X6: [selector] works word by word: the result for a concatenation is
    the concatenation of the results. *)
Theorem selector_app must_have optional words1 words2 min_length :
  selector must_have optional (words1 ++ words2) min_length
  = selector must_have optional words1 min_length
    ++ selector must_have optional words2 min_length.
Proof. by rewrite !selector_filter, fmap_app, filter_app. Qed.

(** X7: more optional letters never lose a word: the result is a
    subsequence of the result with further optional letters. *)
Theorem selector_more_optional must_have optional extra words min_length :
  selector must_have optional words min_length
  `sublist_of` selector must_have (optional ++ extra) words min_length.
Proof.
  rewrite !selector_filter. apply sublist_filter_impl. intros w.
  rewrite !Is_true_true, <- !select_ok_passes. unfold select_ok.
  intros (? & ? & Hsub). repeat split; try done.
  intros c [?|(o & Ho & ?)]%Hsub; [by left | right].
  exists o. rewrite elem_of_app. auto.
Qed.

(** X8: the optional letters count as a set of lowercase forms: two lists
    with the same lowercase forms, in any order and with any repetition,
    give the same result. *)
Theorem selector_optional_set must_have optional1 optional2 words min_length :
  list_to_set (lower <$> optional1) =@{gset str}
    list_to_set (lower <$> optional2) →
  selector must_have optional1 words min_length
  = selector must_have optional2 words min_length.
Proof.
  intros Hset. unfold selector, allowed_letters. cbv zeta. simpl.
  by rewrite Hset.
Qed.

(** X9: a required string that is not one character long is never a
    character of a word; words are then found only when each of its
    characters is an optional letter as well.  (With the empty string there
    is no such character.) *)
Theorem selector_long_required must_have optional words min_length (w : str) :
  w ∈ selector must_have optional words min_length →
  length (lower must_have) ≠ 1 →
  ∀ c, c ∈ lower must_have → ∃ o, o ∈ optional ∧ [c] = lower o.
Proof.
  rewrite selector_filter, list_elem_of_filter, Is_true_true,
    <- select_ok_passes.
  intros [(_ & (pre & post & ->) & Hsub) _] Hlen c Hc.
  destruct (Hsub c) as [Heq|?]; [|by rewrite <- Heq in Hlen|done].
  rewrite !elem_of_app. auto.
Qed.

(** X10: a larger [min_length] gives the words of the smaller one that are
    long enough. *)
Theorem selector_min_length must_have optional words (m1 m2 : Z) :
  (m1 ≤ m2)%Z →
  selector must_have optional words m2
  = filter (λ w, (m2 ≤ len w)%Z) (selector must_have optional words m1).
Proof.
  intros Hm. rewrite !selector_filter, list_filter_filter.
  apply list_filter_iff. intros w.
  rewrite !Is_true_true, <- !select_ok_passes. unfold select_ok.
  split; [|tauto]. intros (? & ? & ?). repeat split; try done. lia.
Qed.

Section LowerIdempotentSelector.

Hypothesis lower_idem : ∀ s, lower (lower s) = lower s.

Lemma selector_fmap_lower must_have optional words min_length :
  lower <$> selector must_have optional words min_length
  = selector must_have optional words min_length.
Proof.
  apply fmap_lower_fixed. intros w. rewrite selector_filter.
  intros [_ (x & -> & _)%list_elem_of_fmap]%list_elem_of_filter.
  apply lower_idem.
Qed.

(** X11: [selector] does not depend on the case of any of its arguments. *)
Theorem selector_case_insensitive must_have optional words min_length :
  selector (lower must_have) (lower <$> optional) (lower <$> words) min_length
  = selector must_have optional words min_length.
Proof.
  rewrite !selector_filter.
  rewrite (fmap_lower_fixed (lower <$> words)).
  2:{ intros w (x & -> & _)%list_elem_of_fmap. apply lower_idem. }
  apply list_filter_iff. intros w. unfold passes, allowed_letters.
  rewrite lower_idem, (fmap_lower_fixed (lower <$> optional)); [done|].
  intros o (x & -> & _)%list_elem_of_fmap. apply lower_idem.
Qed.

(** X12: filtering the result once more with the same letters and the same
    [min_length] changes nothing. *)
Theorem selector_idempotent must_have optional words min_length :
  selector must_have optional
    (selector must_have optional words min_length) min_length
  = selector must_have optional words min_length.
Proof.
  rewrite (selector_filter _ _ (selector _ _ _ _)), selector_fmap_lower.
  rewrite selector_filter, list_filter_filter.
  apply list_filter_iff. tauto.
Qed.

(** X13: the word list of the game is a cleaned one: the words found in
    the output of [clean_wordlist] are words of that list, in its order and
    as they are spelled there, and no word is found twice. *)
Theorem selector_clean_wordlist must_have optional words min_length m :
  selector must_have optional (clean_wordlist words min_length) m
  `sublist_of` clean_wordlist words min_length
  ∧ NoDup (selector must_have optional (clean_wordlist words min_length) m).
Proof.
  rewrite selector_filter, (clean_wordlist_fmap_lower lower_idem).
  split; [apply sublist_filter|].
  apply NoDup_filter. rewrite clean_wordlist_filter.
  apply NoDup_filter, NoDup_first_occurrences.
Qed.

End LowerIdempotentSelector.

(** ** Pangrams *)

(** C8: among the words found, the pangrams are those whose set of distinct
    characters is the allowed set itself: every character of the word is an
    allowed letter and every allowed letter is a character of the word.  The
    tester passes a central letter and other letters taken from lowercased
    input lines, so that [all_letters] is the allowed set of [selector]. *)
Theorem pangrams_spec central others valid_words (w : str) :
  lower central = central →
  Forall (λ c, lower c = c) others →
  all_letters central others = allowed_letters (lower central) others
  ∧ (w ∈ pangrams central others valid_words ↔
     w ∈ valid_words ∧
     set_of_str w = allowed_letters (lower central) others)
  ∧ (set_of_str w = allowed_letters (lower central) others ↔
     (∀ c, c ∈ w → [c] ∈ allowed_letters (lower central) others) ∧
     (∀ x, x ∈ allowed_letters (lower central) others →
           ∃ c, c ∈ w ∧ x = [c])).
Proof.
  intros Hc Ho.
  assert (Heq : all_letters central others
                = allowed_letters (lower central) others).
  { unfold all_letters, allowed_letters. rewrite Hc. do 2 f_equal.
    rewrite <- (list_fmap_id others) at 1. apply list_fmap_ext.
    intros i c Hi. simpl. symmetry.
    eapply Forall_forall in Ho; [done|]. by eapply list_elem_of_lookup_2. }
  split; [done|]. rewrite <- Heq. split.
  - unfold pangrams. rewrite list_elem_of_filter. tauto.
  - rewrite set_eq. unfold set_of_str. split.
    + intros Hset. split.
      * intros c Hin. apply Hset, elem_of_list_to_set, list_elem_of_fmap.
        eauto.
      * intros x Hx. apply Hset in Hx.
        apply elem_of_list_to_set, list_elem_of_fmap in Hx as (c & -> & Hin).
        eauto.
    + intros [Hsub Hall] x. split.
      * intros (c & -> & Hin)%elem_of_list_to_set%list_elem_of_fmap. auto.
      * intros (c & Hin & ->)%Hall.
        apply elem_of_list_to_set, list_elem_of_fmap. eauto.
Qed.

End FilterAndExport.

Example clean_scenario :
  clean_wordlist ulower [w_Apple; w_apple; w_a_b; w_hi; w_test] 4
  = [w_apple; w_test].
Proof. vm_compute. reflexivity. Qed.

(** ["b"], ["a"]; ["é"] is two bytes, and the quote is escaped. *)
Example export_scenario :
  export_words [[98%N]; [97%N]] = Some [91; 34; 98; 34; 44; 34; 97; 34; 93]%N
  ∧ json_load [91; 34; 98; 34; 44; 34; 97; 34; 93]%N = Some [[98%N]; [97%N]]
  ∧ export_words [[233; 34; 10; 1]%N]
    = Some [91; 34; 195; 169; 92; 34; 92; 110; 92; 117; 48; 48; 48; 49; 34; 93]%N
  ∧ json_load [91; 34; 195; 169; 92; 34; 92; 110; 92; 117; 48; 48; 48; 49; 34; 93]%N
    = Some [[233; 34; 10; 1]%N]
  ∧ json_load [91; 34; 92; 117; 100; 56; 51; 100; 92; 117; 68; 69; 48; 48; 34; 93]%N
    = Some [[128512%N]].
Proof. vm_compute. done. Qed.

Example selector_scenario :
  selector ulower [101%N] [[97%N]; [116%N]; [115%N]]
    [w_eats; w_seat; w_tea; w_ease] 4
  = [w_eats; w_seat; w_ease].
Proof. vm_compute. reflexivity. Qed.

(** ** export_words and the parser *)

Section ExportWords.

Local Open Scope N_scope.

(** Comparisons on numbers, decided by [lia]. *)
Ltac cond_true :=
  rewrite ?andb_true_iff, ?negb_true_iff, <- ?not_true_iff_false,
    ?andb_true_iff, ?N.leb_le, ?N.ltb_lt, ?N.eqb_eq; lia.
Ltac cond_false := apply not_true_iff_false; cond_true.
Ltac decide_if :=
  match goal with
  | |- context [if ?b then _ else _] =>
      first [ replace b with true by (symmetry; cond_true)
            | replace b with false by (symmetry; cond_false) ]
  end.

Lemma utf8_decode_encode_cp c bs rest :
  utf8_encode_cp c = Some bs →
  utf8_decode (bs ++ rest) = cons c <$> utf8_decode rest.
Proof.
  unfold utf8_encode_cp.
  replace (c / 4096) with (c / 64 / 64) by (by rewrite N.Div0.div_div).
  replace (c / 262144) with (c / 64 / 64 / 64) by (by rewrite !N.Div0.div_div).
  pose proof (N.div_mod c 64 ltac:(lia)).
  pose proof (N.mod_lt c 64 ltac:(lia)).
  pose proof (N.div_mod (c / 64) 64 ltac:(lia)).
  pose proof (N.mod_lt (c / 64) 64 ltac:(lia)).
  pose proof (N.div_mod (c / 64 / 64) 64 ltac:(lia)).
  pose proof (N.mod_lt (c / 64 / 64) 64 ltac:(lia)).
  set (q1 := c / 64) in *. set (r1 := c mod 64) in *.
  set (q2 := q1 / 64) in *. set (r2 := q1 mod 64) in *.
  set (q3 := q2 / 64) in *. set (r3 := q2 mod 64) in *.
  clearbody q1 r1 q2 r2 q3 r3.
  destruct (c <? 128) eqn:E1; [|destruct (c <? 2048) eqn:E2;
    [|destruct (c <? 65536) eqn:E3;
      [destruct (is_surrogate c) eqn:E4|destruct (c <? 1114112) eqn:E5]]];
    intros [= <-]; cbn [utf8_decode app];
    unfold is_surrogate, is_cont in *;
    rewrite ?N.ltb_lt, ?N.ltb_ge in *.
  - by decide_if.
  - repeat decide_if. do 2 f_equal. lia.
  - apply not_true_iff_false in E4.
    rewrite andb_true_iff, !N.leb_le in E4.
    repeat decide_if. do 2 f_equal. lia.
  - repeat decide_if.
    do 2 f_equal. lia.
Qed.

Lemma utf8_decode_encode s bs :
  utf8_encode s = Some bs → utf8_decode bs = Some s.
Proof.
  revert bs. induction s as [|c s IH]; intros bs; simpl.
  - by intros [= <-].
  - destruct (utf8_encode_cp c) as [b|] eqn:Hc; [|done].
    destruct (utf8_encode s) as [bs'|]; [|done]. intros [= <-].
    by rewrite (utf8_decode_encode_cp c), (IH bs').
Qed.

Lemma utf8_encode_scalar s :
  Forall scalar_value s → is_Some (utf8_encode s).
Proof.
  induction 1 as [|c s Hc _ [bs IH]]; simpl; [by eexists|].
  rewrite IH. destruct (utf8_encode_cp c) as [b|] eqn:E; [by eexists|].
  exfalso. revert E. unfold utf8_encode_cp, is_surrogate, scalar_value in *.
  destruct (c <? 128); [done|]. destruct (c <? 2048); [done|].
  destruct (c <? 65536) eqn:E3.
  - destruct (_ && _) eqn:E4; [|done].
    apply andb_true_iff in E4 as [?%N.leb_le ?%N.leb_le]. lia.
  - destruct (c <? 1114112) eqn:E5; [done|]. apply N.ltb_ge in E3, E5. lia.
Qed.

(** *** The parser on the text of the encoder *)

Lemma hex_value_digit d : d < 16 → hex_value (hex_digit d) = Some d.
Proof.
  intros Hd. unfold hex_digit, hex_value.
  destruct (d <? 10) eqn:E; rewrite ?N.ltb_lt, ?N.ltb_ge in E.
  - decide_if. f_equal. lia.
  - repeat decide_if. f_equal. lia.
Qed.

Lemma parse_unicode_escape acc cur a b da db :
  hex_value a = Some da → hex_value b = Some db →
  foldl parse_step (PString acc cur) [92; 117; 48; 48; a; b]
  = PString acc (push_unicode cur (16 * da + db)).
Proof.
  intros Ha Hb.
  change (foldl parse_step (PString acc cur) [92; 117; 48; 48; a; b])
    with (parse_step (parse_step (PUnicode acc cur 1 0) a) b).
  unfold parse_step at 2. rewrite Ha. unfold parse_step. rewrite Hb.
  reflexivity.
Qed.

Lemma parse_escape_char acc cur c :
  foldl parse_step (PString acc cur) (escape_char c) = PString acc (cur ++ [c]).
Proof.
  unfold escape_char.
  repeat match goal with
         | |- context [c =? ?k] => destruct (N.eqb_spec c k) as [->|?]; [done|]
         end.
  destruct (c <? 32) eqn:E; rewrite ?N.ltb_lt, ?N.ltb_ge in E; cbv iota.
  - assert (c / 16 < 16) by (apply N.Div0.div_lt_upper_bound; lia).
    assert (c mod 16 < 16) by (apply N.mod_lt; lia).
    pose proof (N.div_mod c 16 ltac:(lia)) as Hc.
    rewrite (parse_unicode_escape acc cur _ _ (c / 16) (c mod 16))
      by by apply hex_value_digit.
    rewrite <- Hc. unfold push_unicode.
    destruct (last cur); [|done]. by decide_if.
  - simpl. by repeat decide_if.
Qed.

Lemma parse_string_body acc cur s :
  foldl parse_step (PString acc cur) (flat_map escape_char s)
  = PString acc (cur ++ s).
Proof.
  revert cur. induction s as [|c s IH]; intros cur; simpl.
  - by rewrite app_nil_r.
  - by rewrite foldl_app, parse_escape_char, IH, <- app_assoc.
Qed.

(** From the opening quote on, a string of the encoder is read back as it
    was. *)
Lemma parse_basestring acc s rest :
  foldl parse_step (PString acc []) (flat_map escape_char s ++ 34 :: rest)
  = foldl parse_step (PAfter (acc ++ [s])) rest.
Proof. by rewrite foldl_app, parse_string_body. Qed.

Lemma parse_items acc lst :
  foldl parse_step (PAfter acc) (iterencode_items false lst ++ [93])
  = PEnd (acc ++ lst).
Proof.
  revert acc. induction lst as [|s lst IH]; intros acc.
  - simpl. by rewrite app_nil_r.
  - cbn [iterencode_items]. unfold encode_basestring.
    rewrite <- !app_assoc. cbn [app foldl].
    change (parse_step (parse_step (PAfter acc) 44) 34) with (PString acc []).
    rewrite parse_basestring, IH. by rewrite <- app_assoc.
Qed.

Lemma json_parse_iterencode_list words :
  json_parse (iterencode_list words) = Some words.
Proof.
  unfold json_parse. destruct words as [|s lst]; [done|].
  cbn [iterencode_list iterencode_items]. unfold encode_basestring.
  rewrite <- !app_assoc. cbn [app foldl].
  change (parse_step (parse_step PStart 91) 34) with (PString [] []).
  by rewrite parse_basestring, parse_items.
Qed.

Lemma scalar_value_escape_char c :
  scalar_value c → Forall scalar_value (escape_char c).
Proof.
  intros Hc. unfold escape_char.
  repeat (destruct (_ =? _); [repeat constructor; unfold scalar_value; lia|]).
  destruct (c <? 32) eqn:E; rewrite ?N.ltb_lt, ?N.ltb_ge in E;
    [|by constructor].
  assert (c / 16 < 16) by (apply N.Div0.div_lt_upper_bound; lia).
  assert (c mod 16 < 16) by (apply N.mod_lt; lia).
  unfold hex_digit.
  repeat constructor; unfold scalar_value; try lia;
    destruct (_ <? _); lia.
Qed.

Lemma scalar_value_iterencode_list words :
  Forall (Forall scalar_value) words →
  Forall scalar_value (iterencode_list words).
Proof.
  intros Hw.
  assert (Hitems : ∀ first,
    Forall scalar_value (iterencode_items first words)).
  { induction Hw as [|s lst Hs _ IH]; intros first; simpl; [constructor|].
    apply Forall_app. split; [destruct first; repeat constructor; unfold scalar_value; lia|].
    constructor; [unfold scalar_value; lia|].
    rewrite <- app_assoc. apply Forall_app. split.
    - induction Hs as [|c s Hc _ IHs]; simpl; [constructor|].
      apply Forall_app. split; [by apply scalar_value_escape_char | done].
    - constructor; [unfold scalar_value; lia | apply IH]. }
  unfold iterencode_list. destruct words.
  - repeat constructor; unfold scalar_value; lia.
  - apply Forall_app. split; [apply Hitems|].
    repeat constructor; unfold scalar_value; lia.
Qed.

(** C5: for words made of Unicode scalar values (no surrogate code point
    U+D800..U+DFFF), [export_words] writes a byte sequence, and reading it
    back with the JSON parser gives the list [words] itself: the same
    strings, in the same order, in their original case. *)
Theorem export_words_roundtrip words :
  Forall (Forall scalar_value) words →
  ∃ bs, export_words words = Some bs ∧ json_load bs = Some words.
Proof.
  intros Hw. unfold export_words, json_load.
  destruct (utf8_encode_scalar (iterencode_list words)) as [bs Hbs].
  { by apply scalar_value_iterencode_list. }
  exists bs. split; [done|].
  by rewrite (utf8_decode_encode _ _ Hbs), json_parse_iterencode_list.
Qed.

(** *** Further properties of export_words *)

Lemma utf8_encode_cp_scalar c bs : utf8_encode_cp c = Some bs → scalar_value c.
Proof.
  unfold utf8_encode_cp, is_surrogate, scalar_value.
  destruct (c <? 128) eqn:E1; rewrite ?N.ltb_lt, ?N.ltb_ge in E1; [lia|].
  destruct (c <? 2048) eqn:E2; rewrite ?N.ltb_lt, ?N.ltb_ge in E2; [lia|].
  destruct (c <? 65536) eqn:E3; rewrite ?N.ltb_lt, ?N.ltb_ge in E3.
  - destruct (_ && _) eqn:E4; [done|].
    apply not_true_iff_false in E4. rewrite andb_true_iff, !N.leb_le in E4.
    lia.
  - destruct (c <? 1114112) eqn:E5; rewrite ?N.ltb_lt, ?N.ltb_ge in E5;
      [lia | done].
Qed.

Lemma utf8_encode_is_Some s :
  is_Some (utf8_encode s) ↔ Forall scalar_value s.
Proof.
  split; [|apply utf8_encode_scalar].
  induction s as [|c s IH]; simpl; [constructor|].
  destruct (utf8_encode_cp c) as [b|] eqn:Hc; [|by intros [? ?]].
  destruct (utf8_encode s) as [bs|]; [|by intros [? ?]].
  intros _. constructor; [by eapply utf8_encode_cp_scalar | by apply IH].
Qed.

Lemma escape_char_plain c : 32 ≤ c → c ≠ 34 → c ≠ 92 → escape_char c = [c].
Proof. intros. unfold escape_char. by repeat decide_if. Qed.

Lemma elem_of_iterencode_items first words (w : str) c :
  w ∈ words → c ∈ flat_map escape_char w → c ∈ iterencode_items first words.
Proof.
  intros Hw Hc. revert first.
  induction Hw as [w words|w w' words _ IH]; intros first;
    cbn [iterencode_items]; unfold encode_basestring; rewrite !elem_of_app.
  - tauto.
  - right. right. by apply IH.
Qed.

Lemma iterencode_list_scalar words :
  Forall scalar_value (iterencode_list words) →
  Forall (Forall scalar_value) words.
Proof.
  intros Htext. apply Forall_forall. intros w Hw.
  apply Forall_forall. intros c Hc.
  destruct (N.lt_ge_cases c 55296) as [?|Hge]; [by left|].
  eapply Forall_forall in Htext; [done|].
  unfold iterencode_list. destruct words as [|w0 words]; [by inversion Hw|].
  apply elem_of_app. left. eapply elem_of_iterencode_items; [done|].
  apply list_elem_of_In, in_flat_map. exists c. split.
  - by apply list_elem_of_In.
  - rewrite escape_char_plain by lia. by left.
Qed.

(** X14: [export_words] writes the file exactly when no word has a
    character outside the Unicode scalar values; for Python strings, whose
    code points are below 1114112, that is when no word has a surrogate. *)
Theorem export_words_is_Some words :
  is_Some (export_words words) ↔ Forall (Forall scalar_value) words.
Proof.
  unfold export_words. rewrite utf8_encode_is_Some. split.
  - apply iterencode_list_scalar.
  - apply scalar_value_iterencode_list.
Qed.

(** X15: two lists of words that give the same file are the same list. *)
Theorem export_words_inj words1 words2 bs :
  export_words words1 = Some bs → export_words words2 = Some bs →
  words1 = words2.
Proof.
  unfold export_words. intros H1%utf8_decode_encode H2%utf8_decode_encode.
  assert (Htext : iterencode_list words1 = iterencode_list words2)
    by congruence.
  apply (f_equal json_parse) in Htext.
  rewrite !json_parse_iterencode_list in Htext. congruence.
Qed.

Ltac Forall_list :=
  repeat (apply Forall_cons; split); try apply Forall_nil.

Lemma escape_char_printable c : Forall (λ d, 32 ≤ d) (escape_char c).
Proof.
  unfold escape_char.
  repeat (destruct (_ =? _); [Forall_list; lia|]).
  destruct (c <? 32) eqn:E; rewrite ?N.ltb_lt, ?N.ltb_ge in E.
  - unfold hex_digit. generalize (c / 16), (c mod 16). intros q r.
    Forall_list; try lia; destruct (_ <? _); lia.
  - by Forall_list.
Qed.

Lemma iterencode_list_printable words :
  Forall (λ d, 32 ≤ d) (iterencode_list words).
Proof.
  assert (Hitems : ∀ first,
    Forall (λ d, 32 ≤ d) (iterencode_items first words)).
  { induction words as [|w words IH]; intros first; simpl; [constructor|].
    apply Forall_app. split; [destruct first; Forall_list; lia|].
    apply Forall_cons. split; [lia|].
    rewrite <- app_assoc. apply Forall_app. split.
    - induction w as [|c w IHw]; simpl; [constructor|].
      apply Forall_app. split; [apply escape_char_printable | done].
    - apply Forall_cons. split; [lia | apply IH]. }
  unfold iterencode_list. destruct words.
  - Forall_list; lia.
  - apply Forall_app. split; [apply Hitems | Forall_list; lia].
Qed.

Lemma utf8_encode_cp_bytes c bs :
  utf8_encode_cp c = Some bs → 32 ≤ c → Forall (λ b, 32 ≤ b < 256) bs.
Proof.
  unfold utf8_encode_cp.
  replace (c / 4096) with (c / 64 / 64) by (by rewrite N.Div0.div_div).
  replace (c / 262144) with (c / 64 / 64 / 64) by (by rewrite !N.Div0.div_div).
  pose proof (N.div_mod c 64 ltac:(lia)).
  pose proof (N.mod_lt c 64 ltac:(lia)).
  pose proof (N.div_mod (c / 64) 64 ltac:(lia)).
  pose proof (N.mod_lt (c / 64) 64 ltac:(lia)).
  pose proof (N.div_mod (c / 64 / 64) 64 ltac:(lia)).
  pose proof (N.mod_lt (c / 64 / 64) 64 ltac:(lia)).
  set (q1 := c / 64) in *. set (r1 := c mod 64) in *.
  set (q2 := q1 / 64) in *. set (r2 := q1 mod 64) in *.
  set (q3 := q2 / 64) in *. set (r3 := q2 mod 64) in *.
  clearbody q1 r1 q2 r2 q3 r3.
  destruct (c <? 128) eqn:E1; [|destruct (c <? 2048) eqn:E2;
    [|destruct (c <? 65536) eqn:E3;
      [destruct (is_surrogate c) eqn:E4|destruct (c <? 1114112) eqn:E5]]];
    intros [= <-] Hc; rewrite ?N.ltb_lt, ?N.ltb_ge in *;
    Forall_list; lia.
Qed.


Lemma utf8_encode_app s1 s2 :
  utf8_encode (s1 ++ s2)
  = match utf8_encode s1, utf8_encode s2 with
    | Some bs1, Some bs2 => Some (bs1 ++ bs2)
    | _, _ => None
    end.
Proof.
  induction s1 as [|c s1 IH]; simpl.
  - by destruct (utf8_encode s2).
  - rewrite IH. destruct (utf8_encode_cp c), (utf8_encode s1),
      (utf8_encode s2); try done. by rewrite app_assoc.
Qed.

Lemma utf8_encode_two_byte (w : str) :
  Forall (λ c, 128 ≤ c < 2048) w →
  ∃ bs, utf8_encode (flat_map escape_char w) = Some bs
        ∧ length bs = (2 * length w)%nat.
Proof.
  induction 1 as [|c w Hc _ (bs & IH & Hlen)]; simpl; [by exists []|].
  rewrite escape_char_plain by lia. simpl. rewrite IH.
  unfold utf8_encode_cp. repeat decide_if.
  eexists. split; [done|]. simpl. lia.
Qed.

Lemma utf8_encode_items_two_byte first words :
  Forall (Forall (λ c, 128 ≤ c < 2048)) words →
  ∃ bs, utf8_encode (iterencode_items first words ++ [93]) = Some bs
        ∧ length bs
          = (2 * length (concat words) + 3 * length words + 1)%nat.
Proof.
  intros Hw. revert first.
  induction Hw as [|w words Hc _ IH]; intros first; [by exists [93]|].
  destruct (IH false) as (bs & Hbs & Hlen).
  destruct (utf8_encode_two_byte w Hc) as (bw & Hbw & Hlw).
  cbn [iterencode_items]. unfold encode_basestring.
  rewrite <- !app_assoc. do 4 rewrite utf8_encode_app. rewrite Hbs, Hbw.
  destruct first; simpl; (eexists; split; [done|]);
    simpl; rewrite !length_app; simpl; lia.
Qed.

(** X17: letters of two bytes, as the Cyrillic ones, are written as they
    are and nothing is written between the tokens: for a list of [n ≥ 1]
    words of such letters the file has two bytes for each letter, three for
    each word (its quotes and a comma or a bracket) and one more. *)
Theorem export_words_size_two_byte words :
  words ≠ [] →
  Forall (Forall (λ c, 128 ≤ c < 2048)) words →
  ∃ bs, export_words words = Some bs
        ∧ length bs
          = (2 * length (concat words) + 3 * length words + 1)%nat.
Proof.
  intros Hne Hw. unfold export_words, iterencode_list.
  destruct words as [|w words]; [done|].
  by apply utf8_encode_items_two_byte.
Qed.

End ExportWords.

(** ** The statements on concrete inputs *)

Lemma lower_cp_idem c : lower_cp (lower_cp c) = lower_cp c.
Proof.
  set (d := lower_cp c). assert (Hd : d = lower_cp c) by done.
  clearbody d. unfold lower_cp in *.
  repeat match type of Hd with
         | context [if ?b then _ else _] => destruct b eqn:?
         end;
  repeat match goal with
         | |- context [if ?b then _ else _] => destruct b eqn:?
         end;
  rewrite ?andb_true_iff, ?andb_false_iff, ?negb_true_iff, ?negb_false_iff,
    ?N.leb_le, ?N.leb_gt, ?N.eqb_eq, ?N.eqb_neq in *; lia.
Qed.

Lemma ulower_idem s : ulower (ulower s) = ulower s.
Proof.
  unfold ulower. rewrite map_map. apply map_ext. apply lower_cp_idem.
Qed.

(** C1 on the scenario of the puzzle with required ["e"]. *)
Lemma selector_sound_witness :
  w_eats ∈ selector ulower [101%N] [[97%N]; [116%N]; [115%N]]
             [w_eats; w_seat; w_tea; w_ease] 4
  ∧ (set_of_str w_eats
       ⊆ {[ulower [101%N]]} ∪ list_to_set (ulower <$> [[97%N]; [116%N]; [115%N]])
     ∧ occurs (ulower [101%N]) w_eats
     ∧ (4 ≤ len w_eats)%Z).
Proof.
  assert (H : w_eats ∈ selector ulower [101%N] [[97%N]; [116%N]; [115%N]]
                         [w_eats; w_seat; w_tea; w_ease] 4).
  { vm_compute. apply list_elem_of_here. }
  split; [exact H|].
  exact (selector_sound ulower _ _ _ _ _ H).
Defined.

(** C2 on the scenario of the cleaner. *)
Lemma clean_wordlist_guarantees_witness :
  (∀ s, ulower (ulower s) = ulower s)
  ∧ (clean_wordlist ulower [w_Apple; w_apple; w_a_b; w_hi; w_test] 4
       `sublist_of` (ulower <$> [w_Apple; w_apple; w_a_b; w_hi; w_test])
     ∧ StronglySorted
         (first_before (ulower <$> [w_Apple; w_apple; w_a_b; w_hi; w_test]))
         (clean_wordlist ulower [w_Apple; w_apple; w_a_b; w_hi; w_test] 4)
     ∧ NoDup (ulower <$>
                clean_wordlist ulower [w_Apple; w_apple; w_a_b; w_hi; w_test] 4)
     ∧ Forall (λ w, (4 ≤ len w)%Z ∧
                    (45%N ∉ w) ∧ (126%N ∉ w) ∧ (39%N ∉ w) ∧ (8217%N ∉ w))
         (clean_wordlist ulower [w_Apple; w_apple; w_a_b; w_hi; w_test] 4)).
Proof.
  split; [exact ulower_idem|].
  exact (clean_wordlist_guarantees ulower ulower_idem
           [w_Apple; w_apple; w_a_b; w_hi; w_test] 4).
Defined.

(** C3 on the scenario of the cleaner. *)
Lemma clean_wordlist_idempotent_witness :
  (∀ s, ulower (ulower s) = ulower s)
  ∧ clean_wordlist ulower
      (clean_wordlist ulower [w_Apple; w_apple; w_a_b; w_hi; w_test] 4) 4
    = clean_wordlist ulower [w_Apple; w_apple; w_a_b; w_hi; w_test] 4.
Proof.
  split; [exact ulower_idem|].
  exact (clean_wordlist_idempotent ulower ulower_idem
           [w_Apple; w_apple; w_a_b; w_hi; w_test] 4).
Defined.

(** C4 on capitalised input words. *)
Lemma selector_sublist_lowercase_witness :
  (∀ s, ulower (ulower s) = ulower s)
  ∧ (selector ulower [69%N] [[65%N]; [80%N]; [76%N]] [w_Apple; w_tea; w_apple] 4
       `sublist_of` (ulower <$> [w_Apple; w_tea; w_apple])
     ∧ Forall (λ w, ulower w = w)
         (selector ulower [69%N] [[65%N]; [80%N]; [76%N]]
            [w_Apple; w_tea; w_apple] 4)).
Proof.
  split; [exact ulower_idem|].
  exact (selector_sublist_lowercase ulower ulower_idem
           [69%N] [[65%N]; [80%N]; [76%N]] [w_Apple; w_tea; w_apple] 4).
Defined.

(** C5 on a list with two cases, a two-byte letter, a quote and a line
    feed. *)
Lemma export_words_roundtrip_witness :
  Forall (Forall scalar_value) [[66; 233]; [97; 34; 10]]%N
  ∧ ∃ bs, export_words [[66; 233]; [97; 34; 10]]%N = Some bs
          ∧ json_load bs = Some [[66; 233]; [97; 34; 10]]%N.
Proof.
  assert (H : Forall (Forall scalar_value) [[66; 233]; [97; 34; 10]]%N).
  { repeat (apply Forall_cons; split); try apply Forall_nil;
      unfold scalar_value; lia. }
  split; [exact H|]. exact (export_words_roundtrip _ H).
Defined.

(** C5 as it is stated fails: a string may hold a lone surrogate, which the
    UTF-8 codec of the file refuses, so that [export_words] raises and
    nothing can be read back. *)
Lemma export_words_surrogate :
  export_words [[55296%N]] = None
  ∧ ¬ ∃ bs, export_words [[55296%N]] = Some bs
            ∧ json_load bs = Some [[55296%N]].
Proof.
  split; [reflexivity|]. intros (bs & Hbs & _). discriminate Hbs.
Qed.

(** C7 with [min_length = 0]: the empty string is kept. *)
Lemma clean_wordlist_no_length_filter_witness :
  (0 ≤ 0)%Z
  ∧ ((∀ st word,
        ulower word ∉ seen st → has_unwanted (ulower word) = false →
        clean_step ulower 0 st word
        = CleanState (cleaned st ++ [ulower word]) ({[ulower word]} ∪ seen st))
     ∧ (∀ word,
          word ∈ [[]; w_hi; w_a_b] → has_unwanted (ulower word) = false →
          ulower word ∈ clean_wordlist ulower [[]; w_hi; w_a_b] 0)).
Proof.
  split; [lia|].
  apply (clean_wordlist_no_length_filter ulower [[]; w_hi; w_a_b] 0). lia.
Defined.

(** C8 with the allowed set of ["e"], ["a"], ["t"], ["s"]. *)
Lemma pangrams_spec_witness :
  ulower [101%N] = [101%N]
  ∧ Forall (λ c, ulower c = c) [[97%N]; [116%N]; [115%N]]
  ∧ (all_letters [101%N] [[97%N]; [116%N]; [115%N]]
     = allowed_letters ulower (ulower [101%N]) [[97%N]; [116%N]; [115%N]]
     ∧ (w_eats ∈ pangrams [101%N] [[97%N]; [116%N]; [115%N]] [w_eats; w_ease] ↔
        w_eats ∈ [w_eats; w_ease] ∧
        set_of_str w_eats
        = allowed_letters ulower (ulower [101%N]) [[97%N]; [116%N]; [115%N]])
     ∧ (set_of_str w_eats
        = allowed_letters ulower (ulower [101%N]) [[97%N]; [116%N]; [115%N]] ↔
        (∀ c, c ∈ w_eats →
           [c] ∈ allowed_letters ulower (ulower [101%N])
                   [[97%N]; [116%N]; [115%N]]) ∧
        (∀ x, x ∈ allowed_letters ulower (ulower [101%N])
                    [[97%N]; [116%N]; [115%N]] →
              ∃ c, c ∈ w_eats ∧ x = [c]))).
Proof.
  assert (Hc : ulower [101%N] = [101%N]) by reflexivity.
  assert (Ho : Forall (λ c, ulower c = c) [[97%N]; [116%N]; [115%N]]).
  { repeat (apply Forall_cons; split); try apply Forall_nil; reflexivity. }
  split; [exact Hc|]. split; [exact Ho|].
  exact (pangrams_spec ulower [101%N] [[97%N]; [116%N]; [115%N]]
           [w_eats; w_ease] w_eats Hc Ho).
Defined.

(** C9 with the empty string for [must_have]. *)
Lemma selector_exact_witness :
  selector ulower [] [[97%N]; [116%N]] [w_tea; [84; 65; 84; 65]%N] 4
  = filter (select_ok ulower [] [[97%N]; [116%N]] 4)
      (ulower <$> [w_tea; [84; 65; 84; 65]%N])
  ∧ ulower [] = []
  ∧ (∀ w, select_ok ulower [] [[97%N]; [116%N]] 4 w ↔
          (4 ≤ len w)%Z ∧
          ∀ c, c ∈ w → ∃ o, o ∈ [[97%N]; [116%N]] ∧ [c] = ulower o).
Proof.
  destruct (selector_exact ulower [] [[97%N]; [116%N]]
              [w_tea; [84; 65; 84; 65]%N] 4) as [Hsel Hempty].
  split; [exact Hsel|]. split; [reflexivity|]. exact (Hempty eq_refl).
Defined.

Example selector_empty_required_scenario :
  selector ulower [] [[97%N]; [116%N]] [w_tea; [84; 65; 84; 65]%N] 4
  = [[116; 97; 116; 97]%N].
Proof. vm_compute. reflexivity. Qed.

(** C10 on a list with three spellings of ["ease"]. *)
Lemma selector_keeps_multiplicity_witness :
  select_ok ulower [101%N] [[97%N]; [115%N]] 4 w_ease
  ∧ count w_ease
      (selector ulower [101%N] [[97%N]; [115%N]]
         [w_ease; [69; 65; 83; 69]%N; w_tea; [69; 97; 115; 101]%N] 4)
    = count w_ease
        (ulower <$> [w_ease; [69; 65; 83; 69]%N; w_tea; [69; 97; 115; 101]%N]).
Proof.
  assert (H : select_ok ulower [101%N] [[97%N]; [115%N]] 4 w_ease).
  { apply select_ok_passes. vm_compute. reflexivity. }
  split; [exact H|].
  exact (selector_keeps_multiplicity ulower _ _ _ _ _ H).
Defined.

Example selector_multiplicity_scenario :
  selector ulower [101%N] [[97%N]; [115%N]]
    [w_ease; [69; 65; 83; 69]%N; w_tea; [69; 97; 115; 101]%N] 4
  = [w_ease; w_ease; w_ease].
Proof. vm_compute. reflexivity. Qed.

(** ** main *)

Section Main.

Variable lower : str → str.

(** X18: [main] on the loaded word list.  The summary divides by the number
    of raw words: with an empty list [main] writes the file and then raises
    [ZeroDivisionError].  The write raises exactly when a cleaned word has a
    character that is not a Unicode scalar value.  Whenever the file is
    written, reading it back gives the cleaned word list. *)
Theorem main_outcome raw_words :
  (snd (main lower raw_words) = MainZeroDivisionError ↔ raw_words = [])
  ∧ (snd (main lower raw_words) = MainUnicodeEncodeError ↔
     ¬ Forall (Forall scalar_value) (clean_wordlist lower raw_words 4))
  ∧ (∀ bs, fst (main lower raw_words) = Some bs →
           json_load bs = Some (clean_wordlist lower raw_words 4)).
Proof.
  unfold main, MIN_LENGTH, export_words, len_list. cbv zeta.
  pose proof (utf8_encode_is_Some
                (iterencode_list (clean_wordlist lower raw_words 4))) as Hsome.
  pose proof (iterencode_list_scalar (clean_wordlist lower raw_words 4)).
  pose proof (scalar_value_iterencode_list (clean_wordlist lower raw_words 4)).
  destruct (utf8_encode _) as [bs|] eqn:Hbs.
  - assert (Hok : Forall (Forall scalar_value) (clean_wordlist lower raw_words 4))
      by (apply iterencode_list_scalar, Hsome; eauto).
    split; [|split].
    + case_bool_decide as Hlen; simpl.
      * split; [|done]. intros _. destruct raw_words; [done|]. simpl in Hlen. lia.
      * split; [done|]. intros ->. done.
    + case_bool_decide; simpl; (split; [done|]); intros []; done.
    + intros bs' Hbs'. assert (bs' = bs) as ->
        by (case_bool_decide; simpl in Hbs'; congruence).
      unfold json_load.
      by rewrite (utf8_decode_encode _ _ Hbs), json_parse_iterencode_list.
  - simpl. split; [|split; [|done]].
    + split; [done|]. intros ->. done.
    + split; [|done]. intros _ Hok.
      destruct Hsome as [_ Hsome]. destruct Hsome as [? ?]; [auto|done].
Qed.

End Main.

(** ** The display of the tester *)

Section Display.

Lemma str_lt_irrefl a : str_lt a a = false.
Proof.
  induction a as [|x a IH]; simpl; [done|].
  by rewrite N.ltb_irrefl, N.eqb_refl, IH.
Qed.

Lemma str_lt_trans a b c :
  str_lt a b = true → str_lt b c = true → str_lt a c = true.
Proof.
  revert b c. induction a as [|x a IH]; intros [|y b] [|z c]; simpl;
    try done.
  rewrite !orb_true_iff, !andb_true_iff, !N.ltb_lt, !N.eqb_eq.
  intros [?|[-> ?]] [?|[-> ?]]; try (left; lia).
  right. eauto.
Qed.

Lemma str_lt_total a b : str_lt a b = true ∨ a = b ∨ str_lt b a = true.
Proof.
  revert b. induction a as [|x a IH]; intros [|y b]; simpl; auto.
  rewrite !orb_true_iff, !andb_true_iff, !N.ltb_lt, !N.eqb_eq.
  destruct (N.lt_trichotomy x y) as [?|[->|?]]; auto.
  destruct (IH b) as [?|[->|?]]; auto.
Qed.

Lemma key_lt_irrefl w : key_lt w w = false.
Proof.
  unfold key_lt. by rewrite Z.ltb_irrefl, Z.eqb_refl, str_lt_irrefl.
Qed.

Lemma key_lt_trans a b c :
  key_lt a b = true → key_lt b c = true → key_lt a c = true.
Proof.
  unfold key_lt.
  rewrite !orb_true_iff, !andb_true_iff, !Z.ltb_lt, !Z.eqb_eq.
  intros [?|[? ?]] [?|[? ?]]; try (left; lia).
  right. split; [lia|]. by eapply str_lt_trans.
Qed.

Lemma key_lt_total a b : key_lt a b = true ∨ a = b ∨ key_lt b a = true.
Proof.
  unfold key_lt.
  rewrite !orb_true_iff, !andb_true_iff, !Z.ltb_lt, !Z.eqb_eq.
  destruct (Z.lt_trichotomy (len a) (len b)) as [?|[?|?]]; auto.
  destruct (str_lt_total a b) as [?|[->|?]]; auto.
Qed.

Lemma key_lt_le a b : key_lt a b = true → key_le a b.
Proof.
  unfold key_le. intros Hab. destruct (key_lt b a) eqn:Hba; [|done].
  by rewrite <- (key_lt_irrefl a), <- (key_lt_trans _ _ _ Hab Hba).
Qed.

Lemma key_lt_le_trans a b c : key_lt a b = true → key_le b c → key_le a c.
Proof.
  unfold key_le. intros Hab Hbc. destruct (key_lt c a) eqn:Hca; [|done].
  by rewrite <- Hbc, <- (key_lt_trans _ _ _ Hca Hab).
Qed.

#[local] Instance key_le_antisymm : AntiSymm (=) key_le.
Proof.
  intros a b Hab Hba. unfold key_le in *.
  destruct (key_lt_total a b) as [?|[?|?]]; congruence.
Qed.

Lemma insert_word_Permutation w l : insert_word w l ≡ₚ w :: l.
Proof.
  induction l as [|x l IH]; simpl; [done|].
  destruct (key_lt w x); [done|]. by rewrite IH, Permutation_swap.
Qed.

Lemma insert_word_sorted w l :
  StronglySorted key_le l → StronglySorted key_le (insert_word w l).
Proof.
  induction 1 as [|x l Hl IH Hx]; simpl; [by repeat constructor|].
  destruct (key_lt w x) eqn:Hwx.
  - constructor; [by constructor|]. constructor; [by apply key_lt_le|].
    eapply Forall_impl; [done|]. intros y. by apply key_lt_le_trans.
  - constructor; [done|]. rewrite insert_word_Permutation.
    by constructor.
Qed.

Lemma sort_words_snoc l w :
  sort_words (l ++ [w]) = insert_word w (sort_words l).
Proof. unfold sort_words. by rewrite foldl_app. Qed.

Lemma sort_words_Permutation l : sort_words l ≡ₚ l.
Proof.
  induction l as [|w l IH] using rev_ind; [done|].
  rewrite sort_words_snoc, insert_word_Permutation, IH.
  by rewrite Permutation_cons_append.
Qed.

Lemma sort_words_sorted l : StronglySorted key_le (sort_words l).
Proof.
  induction l as [|w l IH] using rev_ind; [constructor|].
  rewrite sort_words_snoc. by apply insert_word_sorted.
Qed.

(** X19: the sort of the words found gives a rearrangement of them that is
    ordered by length and, for equal lengths, by code points; there is only
    one such rearrangement, so that every sort by this key gives it. *)
Theorem sort_words_spec l :
  sort_words l ≡ₚ l
  ∧ StronglySorted
      (λ w1 w2, (len w1 < len w2)%Z
                ∨ (len w1 = len w2 ∧ str_lt w2 w1 = false))
      (sort_words l)
  ∧ ∀ l', l' ≡ₚ l → StronglySorted key_le l' → l' = sort_words l.
Proof.
  split; [apply sort_words_Permutation|]. split.
  - eapply StronglySorted_weaken; [|apply sort_words_sorted].
    intros a b _ _. unfold key_le, key_lt.
    rewrite orb_false_iff, andb_false_iff, Z.ltb_ge, Z.eqb_neq.
    intros [Hge [Hne|Hlt]]; [left; lia|].
    destruct (Z.eq_dec (len a) (len b)); [by right | left; lia].
  - intros l' Hperm Hsorted.
    eapply (StronglySorted_unique key_le); [done|apply sort_words_sorted|].
    by rewrite sort_words_Permutation.
Qed.

Lemma group_step_lookup (m : gmap Z (list str)) (w : str) (l : Z) :
  group_step m w !! l
  = if decide (len w = l) then Some (default [] (m !! l) ++ [w]) else m !! l.
Proof.
  unfold group_step. cbv zeta. destruct (decide (len w = l)) as [<-|Hne].
  - rewrite lookup_alter_eq. case_bool_decide as Hm.
    + by rewrite lookup_insert_eq, Hm.
    + by destruct (m !! len w).
  - rewrite lookup_alter_ne by done.
    case_bool_decide; [by rewrite lookup_insert_ne | done].
Qed.

Lemma group_loop_lookup (m : gmap Z (list str)) valid_words (l : Z) :
  foldl group_step m valid_words !! l
  = match filter (λ w, len w = l) valid_words with
    | [] => m !! l
    | g => Some (default [] (m !! l) ++ g)
    end.
Proof.
  revert m. induction valid_words as [|w ws IH]; intros m; [done|].
  cbn [foldl]. rewrite IH, group_step_lookup, filter_cons.
  destruct (decide (len w = l)) as [Hl|Hl]; [|done]. simpl.
  destruct (filter _ ws); [done|]. by rewrite <- app_assoc.
Qed.

(** X20: the grouping has a group for a length exactly when a word found
    has that length, and the group holds the words of that length, in the
    order of the list. *)
Theorem group_by_len_lookup valid_words (l : Z) (g : list str) :
  group_by_len valid_words !! l = Some g ↔
  g = filter (λ w, len w = l) valid_words ∧ g ≠ [].
Proof.
  unfold group_by_len. rewrite group_loop_lookup, lookup_empty. simpl.
  destruct (filter _ valid_words) as [|w g'].
  - split; [done|]. by intros [-> ?].
  - split; [by intros [= <-] | by intros [-> _]].
Qed.

Lemma rows_cons (l : list str) :
  l ≠ [] → rows l = take 5 l :: rows (drop 5 l).
Proof.
  intros Hl. unfold rows. rewrite length_drop.
  assert (Hn : (length l + 4) / 5 = S ((length l - 5 + 4) / 5)).
  { destruct l as [|w l]; [done|]. simpl length.
    destruct (le_lt_dec 5 (S (length l))) as [Hge|Hlt].
    - replace (S (length l) + 4) with (S (length l) - 5 + 4 + 1 * 5) by lia.
      rewrite Nat.div_add by lia. lia.
    - replace (S (length l) - 5 + 4) with 4 by lia.
      rewrite (Nat.div_small 4 5) by lia.
      symmetry. apply (Nat.div_unique _ 5 1 (length l)); lia. }
  rewrite Hn. cbn [seq]. rewrite fmap_cons. f_equal.
  rewrite <- fmap_S_seq, <- list_fmap_compose. apply list_fmap_ext.
  intros i k _. simpl. rewrite drop_drop. do 2 f_equal. lia.
Qed.

Lemma rows_spec (l : list str) :
  concat (rows l) = l ∧ Forall (λ r, 1 ≤ length r ≤ 5) (rows l).
Proof.
  remember (length l) as n eqn:Hn. revert l Hn.
  induction n as [n IH] using lt_wf_ind. intros l ->.
  destruct (decide (l = [])) as [->|Hl]; [by split; [|constructor]|].
  rewrite rows_cons by done.
  assert (0 < length l) by (destruct l; [done | simpl; lia]).
  destruct (IH (length (drop 5 l))) with (l := drop 5 l) as [Hcat Hrows];
    [rewrite length_drop; lia | done |].
  split.
  - simpl. by rewrite Hcat, take_drop.
  - constructor; [rewrite length_take; lia | done].
Qed.

Lemma group_by_len_filter valid_words (l : Z) :
  group_by_len valid_words !! l
  = match filter (λ w, len w = l) valid_words with
    | [] => None
    | g => Some g
    end.
Proof.
  unfold group_by_len. rewrite group_loop_lookup, lookup_empty.
  by destruct (filter _ valid_words).
Qed.

Lemma elem_of_sorted_keys (m : gmap Z (list str)) (l : Z) :
  l ∈ sorted_keys m ↔ is_Some (m !! l).
Proof.
  unfold sorted_keys.
  by rewrite merge_sort_Permutation, elem_of_elements, elem_of_dom.
Qed.

Lemma sorted_keys_increasing (m : gmap Z (list str)) :
  StronglySorted Z.lt (sorted_keys m).
Proof.
  unfold sorted_keys.
  assert (Hnd : NoDup (merge_sort Z.le (elements (dom m))))
    by (rewrite merge_sort_Permutation; apply NoDup_elements).
  pose proof (StronglySorted_merge_sort Z.le (elements (dom m))) as Hs.
  induction Hs as [|k ks _ IH Hk]; [constructor|].
  apply NoDup_cons in Hnd as [Hin Hnd]. constructor; [by apply IH|].
  apply Forall_forall. intros k' Hk'. eapply Forall_forall in Hk; [|done].
  assert (k ≠ k') by (by intros ->). lia.
Qed.

(** A list ordered by length starts with its words of the least length. *)
Lemma sorted_by_len_split (k : Z) (l : list str) :
  StronglySorted (λ a b, (len a ≤ len b)%Z) l →
  (∀ w, w ∈ l → (k ≤ len w)%Z) →
  l = filter (λ w, len w = k) l ++ filter (λ w, (k < len w)%Z) l.
Proof.
  induction 1 as [|w l _ IH Hw]; intros Hk; [done|].
  rewrite !filter_cons.
  assert (Hkw := Hk w ltac:(by left)).
  destruct (decide (len w = k)) as [Heq|Hne].
  - rewrite decide_False by lia. simpl. f_equal.
    apply IH. intros w' Hw'. apply Hk. by right.
  - rewrite decide_True by lia.
    assert (Hall : ∀ w', w' ∈ l → (k < len w')%Z).
    { intros w' Hw'. eapply Forall_forall in Hw; [|done]. lia. }
    assert (filter (λ w0, len w0 = k) l = []) as ->.
    { clear -Hall. induction l as [|a l IHl]; [done|].
      rewrite filter_cons_False.
      - apply IHl. intros w' Hw'. apply Hall. by right.
      - assert (k < len a)%Z by (apply Hall; by left). lia. }
    simpl. f_equal. clear -Hall. induction l as [|a l IHl]; [done|].
    rewrite filter_cons_True by (apply Hall; by left). f_equal.
    apply IHl. intros w' Hw'. apply Hall. by right.
Qed.

(** The groups of a list ordered by length, taken by increasing length,
    make up the list. *)
Lemma sorted_by_len_concat (keys : list Z) (l : list str) :
  StronglySorted Z.lt keys →
  StronglySorted (λ a b, (len a ≤ len b)%Z) l →
  (∀ w, w ∈ l → len w ∈ keys) →
  concat ((λ k, filter (λ w, len w = k) l) <$> keys) = l.
Proof.
  intros Hkeys. revert l.
  induction Hkeys as [|k ks _ IH Hk]; intros l Hl Hin.
  - destruct l as [|w l]; [done|].
    destruct (not_elem_of_nil (len w)). apply Hin. by left.
  - rewrite fmap_cons. cbn [concat].
    assert (Hge : ∀ w, w ∈ l → (k ≤ len w)%Z).
    { intros w Hw. apply Hin, elem_of_cons in Hw as [->|Hw]; [lia|].
      eapply Forall_forall in Hk; [|done]. lia. }
    etrans; [|symmetry; exact (sorted_by_len_split k l Hl Hge)]. f_equal.
    rewrite <- (IH (filter (λ w, (k < len w)%Z) l)).
    + f_equal. apply Forall_fmap_ext, Forall_forall. intros k' Hk'.
      eapply Forall_forall in Hk; [|done].
      rewrite list_filter_filter. apply list_filter_iff. intros w. lia.
    + by apply StronglySorted_filter.
    + intros w [Hw Hwl]%list_elem_of_filter.
      apply Hin, elem_of_cons in Hwl as [?|?]; [lia | done].
Qed.

Lemma display_concat valid_words :
  StronglySorted key_le valid_words →
  concat ((λ e, concat e.2) <$> display valid_words) = valid_words.
Proof.
  unfold display. cbv zeta. rewrite <- !list_fmap_compose.
  intros Hsorted.
  rewrite <- (sorted_by_len_concat
                (sorted_keys (group_by_len valid_words)) valid_words) at 2.
  - f_equal. apply list_fmap_ext. intros i l _. simpl.
    rewrite group_by_len_filter.
    destruct (rows_spec (default [] (match filter (λ w, len w = l) valid_words
                                     with [] => None | g => Some g end)))
      as [-> _].
    by destruct (filter _ valid_words).
  - apply sorted_keys_increasing.
  - eapply StronglySorted_weaken; [|done]. intros a b _ _.
    unfold key_le, key_lt.
    rewrite orb_false_iff, Z.ltb_ge. tauto.
  - intros w Hw. apply elem_of_sorted_keys.
    rewrite group_by_len_filter.
    destruct (filter _ valid_words) as [|w' g] eqn:Hf; [|by eexists].
    assert (w ∈ filter (λ w0, len w0 = len w) valid_words)
      by (by apply list_elem_of_filter).
    rewrite Hf in *. by destruct (not_elem_of_nil w).
Qed.

(** X21: what is shown for the words found.  The lengths are in increasing
    order; under each length are the words found of that length, in the
    order of the list, with their number, in rows of one to five words.
    For a list ordered by the sort key, the rows in the order shown make up
    the list: each word found is shown once. *)
Theorem display_spec valid_words :
  StronglySorted Z.lt ((λ e, e.1.1) <$> display valid_words)
  ∧ Forall (λ e, concat e.2 = filter (λ w, len w = e.1.1) valid_words
                 ∧ e.1.2 = len_list (concat e.2)
                 ∧ (0 < e.1.2)%Z
                 ∧ Forall (λ r, 1 ≤ length r ≤ 5) e.2)
      (display valid_words)
  ∧ (StronglySorted key_le valid_words →
     concat ((λ e, concat e.2) <$> display valid_words) = valid_words).
Proof.
  unfold display. cbv zeta. rewrite <- !list_fmap_compose.
  split; [|split].
  - rewrite (list_fmap_ext _ id (sorted_keys (group_by_len valid_words)))
      by done.
    rewrite list_fmap_id. apply sorted_keys_increasing.
  - apply Forall_fmap, Forall_forall.
    intros l [g Hg]%elem_of_sorted_keys. simpl. rewrite Hg. simpl.
    rewrite group_by_len_filter in Hg.
    destruct (rows_spec g) as [Hcat Hrows]. rewrite Hcat.
    destruct (filter _ valid_words) as [|w g'] eqn:Hf; [done|].
    injection Hg as <-. repeat split; try done; unfold len_list; simpl; lia.
  - intros Hsorted. rewrite list_fmap_compose. by apply display_concat.
Qed.

End Display.

(** ** One query of the tester *)

Section Query.

(** [str.lower], [str.strip] and [str.isalpha] of the Python runtime. *)
Variable lower strip : str → str.
Variable isalpha : str → bool.

(** How one turn of the loop of the tester ends: the loop is left, an entry
    is refused, no word is found, or the words found are shown, by length,
    and the pangrams among them. *)
Inductive query_result :=
| QueryQuit
| QueryCentralError
| QueryOthersError (n : Z)
| QueryNoWords
| QueryFound (valid_words : list str)
    (shown : list (Z * Z * list (list str))) (pangrams : list str).

(** One turn of the loop on the two lines entered ([line2] is only read
    when the central letter is accepted) and the dictionary [words]. *)
Definition query (words : list str) (line1 line2 : str) : query_result :=
  let central := lower (strip line1) in
  if bool_decide (central = [113%N]) then QueryQuit
  else if bool_decide (len central ≠ 1%Z) then QueryCentralError
  else
    let others_input := lower (strip line2) in
    let others := filter (λ c, isalpha c) ((λ c, [c]) <$> others_input) in
    if bool_decide (len_list others ≠ 6%Z)
    then QueryOthersError (len_list others)
    else
      let valid_words := sort_words (selector lower central others words 4) in
      if bool_decide (valid_words = []) then QueryNoWords
      else QueryFound valid_words (display valid_words)
             (pangrams central others valid_words).

(** X22: a turn of the tester that shows words.  The central entry is one
    character, other than ['q'], and six letters were kept of the second
    entry.  The words shown are the words [selector] finds with the default
    [min_length] of 4, rearranged in the order of the sort key; each has at
    least four characters, has the (lowercased) central letter in it and
    has its characters among the allowed letters.  The rows shown make up
    the list of these words, and the pangrams are those of them whose
    characters are all the letters entered. *)
Theorem query_found words line1 line2 valid_words shown pgs :
  query words line1 line2 = QueryFound valid_words shown pgs →
  ∃ c others,
    lower (strip line1) = [c] ∧ c ≠ 113%N
    ∧ others = filter (λ o, isalpha o) ((λ d, [d]) <$> lower (strip line2))
    ∧ length others = 6
    ∧ valid_words ≠ []
    ∧ valid_words ≡ₚ selector lower [c] others words 4
    ∧ StronglySorted key_le valid_words
    ∧ Forall (λ w, (4 ≤ len w)%Z ∧ occurs (lower [c]) w
                   ∧ set_of_str w ⊆ allowed_letters lower (lower [c]) others)
        valid_words
    ∧ concat ((λ e, concat e.2) <$> shown) = valid_words
    ∧ pgs `sublist_of` valid_words
    ∧ ∀ w, w ∈ pgs ↔ w ∈ valid_words ∧ set_of_str w = all_letters [c] others.
Proof.
  unfold query. cbv zeta.
  case_bool_decide as Hq; [done|]. case_bool_decide as Hlen; [done|].
  case_bool_decide as Hsix; [done|]. case_bool_decide as Hne; [done|].
  intros [= <- <- <-].
  destruct (lower (strip line1)) as [|c [|c' central]] eqn:Hcentral;
    try (unfold len in Hlen; simpl in Hlen; lia).
  exists c, (filter (λ o, isalpha o) ((λ d, [d]) <$> lower (strip line2))).
  split; [done|]. split; [congruence|]. split; [done|].
  split; [unfold len_list in Hsix; lia|]. split; [done|].
  split; [apply sort_words_Permutation|].
  split; [apply sort_words_sorted|]. split; [|split; [|split]].
  - apply Forall_forall. intros w Hw.
    rewrite sort_words_Permutation, selector_filter in Hw.
    apply list_elem_of_filter in Hw as [Hw _].
    apply Is_true_true, passes_spec in Hw as (? & ? & Hsub).
    by repeat split.
  - apply display_concat, sort_words_sorted.
  - apply sublist_filter.
  - intros w. unfold pangrams. rewrite list_elem_of_filter. tauto.
Qed.

End Query.

(** ** The further statements on concrete inputs *)

Example query_scenario :
  query ulower ustrip uisalpha [w_seat; w_tea; w_eats; w_Apple; w_ease]
    [32; 69; 32]%N [97; 32; 116; 32; 115; 32; 120; 121; 122]%N
  = QueryFound [w_ease; w_eats; w_seat]
      [(4%Z, 3%Z, [[w_ease; w_eats; w_seat]])] [].
Proof. vm_compute. reflexivity. Qed.

(** X3 on the scenario of the cleaner, from 2 to 5. *)
Lemma clean_wordlist_min_length_witness :
  (2 ≤ 5)%Z
  ∧ clean_wordlist ulower [w_Apple; w_apple; w_a_b; w_hi; w_test] 5
    = filter (λ w, (5 ≤ len w)%Z)
        (clean_wordlist ulower [w_Apple; w_apple; w_a_b; w_hi; w_test] 2).
Proof.
  split; [lia|].
  apply (clean_wordlist_min_length ulower
           [w_Apple; w_apple; w_a_b; w_hi; w_test] 2 5). lia.
Defined.

(** X5 on the scenario of the cleaner. *)
Lemma clean_wordlist_case_insensitive_witness :
  (∀ s, ulower (ulower s) = ulower s)
  ∧ clean_wordlist ulower
      (ulower <$> [w_Apple; w_apple; w_a_b; w_hi; w_test]) 4
    = clean_wordlist ulower [w_Apple; w_apple; w_a_b; w_hi; w_test] 4.
Proof.
  split; [exact ulower_idem|].
  exact (clean_wordlist_case_insensitive ulower ulower_idem
           [w_Apple; w_apple; w_a_b; w_hi; w_test] 4).
Defined.

(** X8 with the optional letters in another order, one of them twice and
    one as a capital. *)
Lemma selector_optional_set_witness :
  list_to_set (ulower <$> [[97%N]; [116%N]; [115%N]]) =@{gset str}
    list_to_set (ulower <$> [[115%N]; [84%N]; [97%N]; [115%N]])
  ∧ selector ulower [101%N] [[97%N]; [116%N]; [115%N]]
      [w_eats; w_seat; w_tea; w_ease] 4
    = selector ulower [101%N] [[115%N]; [84%N]; [97%N]; [115%N]]
        [w_eats; w_seat; w_tea; w_ease] 4.
Proof.
  assert (H : list_to_set (ulower <$> [[97%N]; [116%N]; [115%N]]) =@{gset str}
                list_to_set (ulower <$> [[115%N]; [84%N]; [97%N]; [115%N]])).
  { vm_compute. reflexivity. }
  split; [exact H|].
  exact (selector_optional_set ulower [101%N] _ _
           [w_eats; w_seat; w_tea; w_ease] 4 H).
Defined.

(** X9 with the required string ["ea"], whose letters are optional too. *)
Lemma selector_long_required_witness :
  w_seat ∈ selector ulower [101; 97]%N [[101%N]; [97%N]; [116%N]; [115%N]]
             [w_eats; w_seat; w_test] 4
  ∧ length (ulower [101; 97]%N) ≠ 1
  ∧ ∀ c, c ∈ ulower [101; 97]%N →
         ∃ o, o ∈ [[101%N]; [97%N]; [116%N]; [115%N]] ∧ [c] = ulower o.
Proof.
  assert (H : w_seat ∈ selector ulower [101; 97]%N
                         [[101%N]; [97%N]; [116%N]; [115%N]]
                         [w_eats; w_seat; w_test] 4).
  { vm_compute. apply list_elem_of_further, list_elem_of_here. }
  assert (Hlen : length (ulower [101; 97]%N) ≠ 1) by (simpl; lia).
  split; [exact H|]. split; [exact Hlen|].
  exact (selector_long_required ulower _ _ _ _ _ H Hlen).
Defined.

(** X10 on the scenario of the puzzle, from 3 to 4. *)
Lemma selector_min_length_witness :
  (3 ≤ 4)%Z
  ∧ selector ulower [101%N] [[97%N]; [116%N]; [115%N]]
      [w_eats; w_seat; w_tea; w_ease] 4
    = filter (λ w, (4 ≤ len w)%Z)
        (selector ulower [101%N] [[97%N]; [116%N]; [115%N]]
           [w_eats; w_seat; w_tea; w_ease] 3).
Proof.
  split; [lia|].
  apply (selector_min_length ulower [101%N] [[97%N]; [116%N]; [115%N]]
           [w_eats; w_seat; w_tea; w_ease] 3 4). lia.
Defined.

(** X11 with capitals in each argument. *)
Lemma selector_case_insensitive_witness :
  (∀ s, ulower (ulower s) = ulower s)
  ∧ selector ulower (ulower [69%N]) (ulower <$> [[65%N]; [80%N]; [76%N]])
      (ulower <$> [w_Apple; w_tea; w_apple]) 4
    = selector ulower [69%N] [[65%N]; [80%N]; [76%N]]
        [w_Apple; w_tea; w_apple] 4.
Proof.
  split; [exact ulower_idem|].
  exact (selector_case_insensitive ulower ulower_idem
           [69%N] [[65%N]; [80%N]; [76%N]] [w_Apple; w_tea; w_apple] 4).
Defined.

(** X12 on the scenario of the puzzle. *)
Lemma selector_idempotent_witness :
  (∀ s, ulower (ulower s) = ulower s)
  ∧ selector ulower [101%N] [[97%N]; [116%N]; [115%N]]
      (selector ulower [101%N] [[97%N]; [116%N]; [115%N]]
         [w_eats; w_seat; w_tea; w_ease] 4) 4
    = selector ulower [101%N] [[97%N]; [116%N]; [115%N]]
        [w_eats; w_seat; w_tea; w_ease] 4.
Proof.
  split; [exact ulower_idem|].
  exact (selector_idempotent ulower ulower_idem
           [101%N] [[97%N]; [116%N]; [115%N]]
           [w_eats; w_seat; w_tea; w_ease] 4).
Defined.

(** X13 on a raw list with a word in two spellings. *)
Lemma selector_clean_wordlist_witness :
  (∀ s, ulower (ulower s) = ulower s)
  ∧ (selector ulower [101%N] [[97%N]; [112%N]; [108%N]]
       (clean_wordlist ulower [w_Apple; w_apple; w_tea] 4) 4
       `sublist_of` clean_wordlist ulower [w_Apple; w_apple; w_tea] 4
     ∧ NoDup (selector ulower [101%N] [[97%N]; [112%N]; [108%N]]
                (clean_wordlist ulower [w_Apple; w_apple; w_tea] 4) 4)).
Proof.
  split; [exact ulower_idem|].
  exact (selector_clean_wordlist ulower ulower_idem
           [101%N] [[97%N]; [112%N]; [108%N]] [w_Apple; w_apple; w_tea] 4 4).
Defined.

(** X15 on the list of ["b"] and ["a"]. *)
Lemma export_words_inj_witness :
  export_words [[98%N]; [97%N]] = Some [91; 34; 98; 34; 44; 34; 97; 34; 93]%N
  ∧ export_words [[98%N]; [97%N]] = Some [91; 34; 98; 34; 44; 34; 97; 34; 93]%N
  ∧ [[98%N]; [97%N]] = [[98%N]; [97%N]].
Proof.
  assert (H : export_words [[98%N]; [97%N]]
              = Some [91; 34; 98; 34; 44; 34; 97; 34; 93]%N) by reflexivity.
  split; [exact H|]. split; [exact H|].
  exact (export_words_inj _ _ _ H H).
Defined.


(** X17 on two Cyrillic words, of two and three letters: 2 * 5 + 3 * 2 + 1
    bytes. *)
Lemma export_words_size_two_byte_witness :
  [[1076; 1072]; [1084; 1080; 1088]]%N ≠ []
  ∧ Forall (Forall (λ c, 128 ≤ c < 2048)%N) [[1076; 1072]; [1084; 1080; 1088]]%N
  ∧ ∃ bs, export_words [[1076; 1072]; [1084; 1080; 1088]]%N = Some bs
          ∧ length bs
            = 2 * length (concat [[1076; 1072]; [1084; 1080; 1088]]%N)
              + 3 * length [[1076; 1072]; [1084; 1080; 1088]]%N + 1.
Proof.
  assert (Hne : [[1076; 1072]; [1084; 1080; 1088]]%N ≠ []) by discriminate.
  assert (Hw : Forall (Forall (λ c, 128 ≤ c < 2048)%N)
                 [[1076; 1072]; [1084; 1080; 1088]]%N).
  { repeat (apply Forall_cons; split); try apply Forall_nil; lia. }
  split; [exact Hne|]. split; [exact Hw|].
  exact (export_words_size_two_byte _ Hne Hw).
Defined.

(** X18 on a raw list with a capitalised and a short word. *)
Lemma main_outcome_witness :
  fst (main ulower [w_Apple; w_hi])
  = Some [91; 34; 97; 112; 112; 108; 101; 34; 93]%N
  ∧ json_load [91; 34; 97; 112; 112; 108; 101; 34; 93]%N
    = Some (clean_wordlist ulower [w_Apple; w_hi] 4).
Proof.
  assert (H : fst (main ulower [w_Apple; w_hi])
              = Some [91; 34; 97; 112; 112; 108; 101; 34; 93]%N)
    by (vm_compute; reflexivity).
  split; [exact H|].
  destruct (main_outcome ulower [w_Apple; w_hi]) as (_ & _ & Hload).
  exact (Hload _ H).
Defined.

Example main_empty_scenario :
  main ulower [] = (Some [91; 93]%N, MainZeroDivisionError).
Proof. vm_compute. reflexivity. Qed.

(** X19 on the words of the puzzle. *)
Lemma sort_words_spec_witness :
  [w_tea; w_ease; w_eats; w_seat] ≡ₚ [w_seat; w_eats; w_tea; w_ease]
  ∧ StronglySorted key_le [w_tea; w_ease; w_eats; w_seat]
  ∧ [w_tea; w_ease; w_eats; w_seat]
    = sort_words [w_seat; w_eats; w_tea; w_ease].
Proof.
  assert (Hp : [w_tea; w_ease; w_eats; w_seat]
               ≡ₚ [w_seat; w_eats; w_tea; w_ease]).
  { apply (bool_decide_unpack _). vm_compute. exact I. }
  assert (Hs : StronglySorted key_le [w_tea; w_ease; w_eats; w_seat]).
  { repeat (apply StronglySorted_cons; split);
      repeat (apply Forall_cons; split);
      try apply Forall_nil; try apply SSorted_nil; reflexivity. }
  split; [exact Hp|]. split; [exact Hs|].
  destruct (sort_words_spec [w_seat; w_eats; w_tea; w_ease]) as (_ & _ & Hu).
  exact (Hu _ Hp Hs).
Defined.

(** X21 on sorted words of two lengths. *)
Lemma display_spec_witness :
  StronglySorted key_le [w_tea; w_ease; w_eats; w_seat]
  ∧ concat ((λ e, concat e.2) <$> display [w_tea; w_ease; w_eats; w_seat])
    = [w_tea; w_ease; w_eats; w_seat].
Proof.
  assert (Hs : StronglySorted key_le [w_tea; w_ease; w_eats; w_seat]).
  { repeat (apply StronglySorted_cons; split);
      repeat (apply Forall_cons; split);
      try apply Forall_nil; try apply SSorted_nil; reflexivity. }
  split; [exact Hs|].
  destruct (display_spec [w_tea; w_ease; w_eats; w_seat]) as (_ & _ & Hc).
  exact (Hc Hs).
Defined.

Example display_scenario :
  display [w_tea; w_ease; w_eats; w_seat]
  = [(3%Z, 1%Z, [[w_tea]]); (4%Z, 3%Z, [[w_ease; w_eats; w_seat]])].
Proof. vm_compute. reflexivity. Qed.

(** X22 on the query of [query_scenario]. *)
Lemma query_found_witness :
  query ulower ustrip uisalpha [w_seat; w_tea; w_eats; w_Apple; w_ease]
    [32; 69; 32]%N [97; 32; 116; 32; 115; 32; 120; 121; 122]%N
  = QueryFound [w_ease; w_eats; w_seat]
      [(4%Z, 3%Z, [[w_ease; w_eats; w_seat]])] []
  ∧ ∃ c others,
      ulower (ustrip [32; 69; 32]%N) = [c] ∧ c ≠ 113%N
      ∧ others = filter (λ o, uisalpha o)
                   ((λ d, [d]) <$>
                    ulower (ustrip [97; 32; 116; 32; 115; 32; 120; 121; 122]%N))
      ∧ length others = 6
      ∧ [w_ease; w_eats; w_seat] ≠ []
      ∧ [w_ease; w_eats; w_seat]
        ≡ₚ selector ulower [c] others
             [w_seat; w_tea; w_eats; w_Apple; w_ease] 4
      ∧ StronglySorted key_le [w_ease; w_eats; w_seat]
      ∧ Forall (λ w, (4 ≤ len w)%Z ∧ occurs (ulower [c]) w
                     ∧ set_of_str w
                       ⊆ allowed_letters ulower (ulower [c]) others)
          [w_ease; w_eats; w_seat]
      ∧ concat ((λ e, concat e.2) <$>
                [(4%Z, 3%Z, [[w_ease; w_eats; w_seat]])])
        = [w_ease; w_eats; w_seat]
      ∧ [] `sublist_of` [w_ease; w_eats; w_seat]
      ∧ ∀ w, w ∈ [] ↔
             w ∈ [w_ease; w_eats; w_seat]
             ∧ set_of_str w = all_letters [c] others.
Proof.
  assert (H : query ulower ustrip uisalpha
                [w_seat; w_tea; w_eats; w_Apple; w_ease]
                [32; 69; 32]%N [97; 32; 116; 32; 115; 32; 120; 121; 122]%N
              = QueryFound [w_ease; w_eats; w_seat]
                  [(4%Z, 3%Z, [[w_ease; w_eats; w_seat]])] [])
    by (vm_compute; reflexivity).
  split; [exact H|].
  exact (query_found ulower ustrip uisalpha _ _ _ _ _ _ H).
Defined.
